(** * Beast HTTP message writer: the blocking [write] and the composed
      operation [write_op] of beast/http/impl/write.ipp

    The development embeds the two engines that serialize an HTTP message
    onto a stream.  Both drive the same [write_preparation] object: the
    serialized header block sits in [sb], the body is pulled slice by slice
    from the Body's writer, and each slice is handed to the stream either raw
    or chunk-encoded.  Every run is recorded as a trace of events, so that
    statements about what reached the stream, and in which order, are
    statements about lists.  The loops run on fuel; a run that is cut short
    still shows the events up to that point.

    A second part embeds the completion condition of
    examples/read_until_delim.cpp, which stops an [asio::read] at a
    delimiter string, and the way [main] uses it for its two reads. *)

From Stdlib Require Import List Ascii NArith ZArith Lia Bool Arith.
From Stdlib Require String HexadecimalString.
Import ListNotations String.StringSyntax.
Delimit Scope string_scope with string.

Set Implicit Arguments.

(** ** Bytes, error codes *)

Definition bytes := list ascii.

(** [boost::system::error_code].  A default constructed code tests false;
    that is [None] here.  Every other value is a set error. *)
Inductive errc : Type :=
| asio_eof                (* boost::asio::error::eof *)
| errc_code (n : nat).    (* any other error value *)

Definition error_code := option errc.

(** ** Chunk framing (beast/http/chunk_encode.h) *)

Definition CRLF : bytes := ["013"%char; "010"%char].

Definition to_hex (n : nat) : bytes :=
  String.list_ascii_of_string
    (HexadecimalString.NilZero.string_of_uint (N.to_hex_uint (N.of_nat n))).

(** Modelled from the spec: [chunk_encode] lives in beast/http/chunk_encode.h,
    which is not part of the sources at hand.  It prefixes the buffer
    sequence with its length in hexadecimal followed by CRLF, and appends a
    trailing CRLF. *)
Definition chunk_encode (b : bytes) : bytes :=
  to_hex (length b) ++ CRLF ++ b ++ CRLF.

(** Modelled from the spec: [chunk_encode_final] (same missing header)
    returns the fixed sequence 0 CR LF CR LF. *)
Definition chunk_encode_final : bytes := "0"%char :: CRLF ++ CRLF.

(** The body part of a write: [chunk_encode(buffers)] when [wp.chunked],
    else [buffers]. *)
Definition frame (ch : bool) (buffers : bytes) : bytes :=
  if ch then chunk_encode buffers else buffers.

(** ** The Body writer and the events of a run *)

(** Modelled from the spec: what one call [wp.w(resume, ec, emit)] does.
    The writer type itself comes from the Body and is not in the sources.
    By its contract a call either invokes [emit] once with the next slice
    and returns [true] (no more data) or [false] (more follows), or returns
    [boost::indeterminate] after keeping the resume context, or sets [ec]. *)
Inductive produce_result : Type :=
| Emit (buffers : bytes) (done : bool)
| Suspended
| Fail (e : errc).

(** Which statement of the engine issued a stream write. *)
Inductive write_kind : Type :=
| HeaderAndBody    (* "write headers and body" *)
| HeaderOnly       (* the flush of [wp.sb] before the blocking wait *)
| BodyOnly         (* "write body" *)
| FinalChunk.      (* "write final chunk" *)

(** A stream write is recorded with the two operands of [append_buffers]:
    what came out of [wp.sb] and what followed it, and with its result.
    [EvResume] stands for the invocation of the resume context by the
    writer: in [write] it ends the wait on the condition variable, in
    [write_op] it dispatches the operation again.  By the contract of the
    writer it comes after the call that suspended has returned. *)
Inductive event : Type :=
| EvInit (r : error_code)                (* wp.init(ec) *)
| EvProduce (r : produce_result)         (* wp.w(...) *)
| EvWrite (k : write_kind) (from_sb data : bytes) (r : error_code)
| EvResume                               (* the resume context is invoked *)
| EvEnter                                (* write_op::operator() is entered *)
| EvComplete (ec : error_code).          (* the caller gets [ec] *)

Definition trace := list event.

(** How far a run got: the caller has been handed an error code, or the
    fuel ran out first.  In the second case the trace is what has happened
    up to then. *)
Inductive outcome : Type :=
| Finished (ec : error_code)
| OutOfFuel.

Definition run_result := (trace * outcome)%type.

Definition ret (ec : error_code) : run_result :=
  ([EvComplete ec], Finished ec).

Definition out_of_fuel : run_result := ([], OutOfFuel).

Definition emit_ev (e : event) (r : run_result) : run_result :=
  (e :: fst r, snd r).

Notation "e ::> r" := (emit_ev e r) (at level 60, right associativity).

Fixpoint emit_evs (es : list event) (r : run_result) : run_result :=
  match es with
  | [] => r
  | e :: es => e ::> emit_evs es r
  end.

(** Which engine drives the write. *)
Inductive engine : Type :=
| Sync
| Async (is_continuation : bool).

(** ** The message and its preparation *)

Section Engines.

(** The Body's writer: its state, [init] and the call operator. *)
Variable Writer : Type.
Variable w_init : Writer -> error_code * Writer.
Variable w_call : Writer -> produce_result * Writer.

(** The stream: [boost::asio::write] hands a payload over and reports an
    error code. *)
Variable Stream : Type.
Variable asio_write : Stream -> bytes -> error_code * Stream.

(** What the engines read off a message.  [content_length] is
    modelled from the spec: the length a content-length message declares in
    its header block; neither engine reads it. *)
Record message : Type := {
  header : bytes;           (* the serialized start line and fields *)
  msg_chunked : bool;       (* Transfer-Encoding: chunked *)
  msg_close : bool;         (* the connection closes after the message *)
  content_length : nat;
  body : Writer
}.

(** Modelled from the spec: [detail::write_preparation]
    (beast/http/detail/write_preparation.h is not in the sources).  It owns
    the writer [w], the header buffer [sb] and the two flags. *)
Record write_preparation : Type := {
  w : Writer;
  sb : bytes;
  chunked : bool;
  close : bool
}.

Definition prepare (m : message) : write_preparation :=
  {| w := body m; sb := []; chunked := msg_chunked m; close := msg_close m |}.

(** [wp.init(ec)]: initialise the writer; on success serialize the header
    block into [sb]. *)
Definition init (m : message) (wp : write_preparation)
  : error_code * write_preparation :=
  let '(ec, w') := w_init (w wp) in
  match ec with
  | Some _ =>
    (ec, {| w := w'; sb := sb wp; chunked := chunked wp; close := close wp |})
  | None =>
    (None,
     {| w := w'; sb := header m; chunked := chunked wp; close := close wp |})
  end.

Definition set_w (wp : write_preparation) (w' : Writer) : write_preparation :=
  {| w := w'; sb := sb wp; chunked := chunked wp; close := close wp |}.

(** [wp.sb.consume(wp.sb.size())] *)
Definition consume (wp : write_preparation) : write_preparation :=
  {| w := w wp; sb := []; chunked := chunked wp; close := close wp |}.

(** ** The synchronous engine: [write(stream, msg, ec)] *)

(** The code after the outer loop: the final chunk, then the close flag. *)
Definition write_tail (chunked close : bool) (s : Stream) : run_result :=
  if chunked then
    let '(ec, _) := asio_write s chunk_encode_final in
    EvWrite FinalChunk [] chunk_encode_final ec ::>
    match ec with
    | Some _ => ret ec
    | None => ret (if close then Some asio_eof else None)
    end
  else ret (if close then Some asio_eof else None).

(** The two nested [for(;;)] loops.  [inner = false] is the head of the
    outer loop, [inner = true] the head of the inner one.  One unit of fuel
    is spent per call of the writer.  A [break] in the inner loop leaves
    the inner loop only, so control comes back to the head of the outer. *)
Fixpoint write_loop (fuel : nat) (inner : bool) (wp : write_preparation)
    (s : Stream) {struct fuel} : run_result :=
  match fuel with
  | O => out_of_fuel
  | S fuel =>
    let '(r, w') := w_call (w wp) in
    let wp := set_w wp w' in
    EvProduce r ::>
    if inner then
      match r with
      | Fail e => ret (Some e)
      | Emit buffers done =>
        let '(ec, s) := asio_write s (frame (chunked wp) buffers) in
        EvWrite BodyOnly [] (frame (chunked wp) buffers) ec ::>
        match ec with
        | Some _ => ret ec
        | None =>
          if done then write_loop fuel false wp s
          else write_loop fuel true wp s
        end
      | Suspended =>
        EvResume ::> write_loop fuel true wp s
      end
    else
      match r with
      | Fail e => ret (Some e)
      | Emit buffers done =>
        let '(ec, s) := asio_write s (sb wp ++ frame (chunked wp) buffers) in
        EvWrite HeaderAndBody (sb wp) (frame (chunked wp) buffers) ec ::>
        match ec with
        | Some _ => ret ec
        | None =>
          if done then write_tail (chunked wp) (close wp) s
          else write_loop fuel true (consume wp) s
        end
      | Suspended =>
        let '(ec, s) := asio_write s (sb wp) in
        EvWrite HeaderOnly (sb wp) [] ec ::>
        match ec with
        | Some _ => ret ec
        | None => EvResume ::> write_loop fuel true (consume (consume wp)) s
        end
      end
  end.

Definition write (fuel : nat) (m : message) (s : Stream) : run_result :=
  let '(ec, wp) := init m (prepare m) in
  EvInit ec ::>
  match ec with
  | Some _ => ret ec
  | None => write_loop fuel false wp s
  end.

(** ** The asynchronous engine: [detail::write_op] *)

(** The values [d.state] takes: 0, 1, 2, 3, 4, 5 and 99. *)
Inductive op_state : Type :=
| State0 | State1 | State2 | State3 | State4 | State5 | State99.

(** The shared state [write_op::data].  The stream [s] is threaded through
    [async_run], the call of the handler [h] is the event [EvComplete], and
    the resume contexts [resume] and [copy] are the event [EvResume]. *)
Record data : Type := {
  d_wp : write_preparation;
  cont : bool;
  state : op_state
}.

Definition set_state (d : data) (n : op_state) : data :=
  {| d_wp := d_wp d; cont := cont d; state := n |}.

Definition set_wp (d : data) (wp : write_preparation) : data :=
  {| d_wp := wp; cont := cont d; state := state d |}.

Definition set_cont (d : data) (b : bool) : data :=
  {| d_wp := d_wp d; cont := b; state := state d |}.

(** How one call of [operator()] ends: with one continuation left behind,
    or with the handler called. *)
Inductive pending : Type :=
| PendingWrite (k : write_kind) (from_sb data : bytes)  (* async_write *)
| PendingPost (ec : error_code) (again : bool)          (* io_service::post *)
| PendingResume                             (* the writer holds the context *)
| Completed (ec : error_code).                          (* d.h(ec) *)

(** [if(result) d.state = d.wp.chunked ? 4 : 5; else d.state = 2;] *)
Definition next_state (chunked done : bool) : op_state :=
  if done then (if chunked then State4 else State5) else State2.

(** The [while(! ec && d.state != 99)] loop around the [switch].  A pass
    through the loop costs one unit of fuel; no path takes more than three
    passes. *)
Fixpoint op_loop (n : nat) (m : message) (d : data) (ec : error_code)
    {struct n} : option (data * list event * pending) :=
  match n with
  | O => None
  | S n =>
    match ec with
    | Some _ => Some (d, [], Completed ec)
    | None =>
      match state d with
      | State99 => Some (d, [], Completed ec)
      | State0 =>
        let '(ec, wp) := init m (d_wp d) in
        let d := set_wp d wp in
        match ec with
        | Some _ =>
          Some (set_state d State99, [EvInit ec], PendingPost ec false)
        | None =>
          match op_loop n m (set_state d State1) None with
          | Some (d, evs, p) => Some (d, EvInit None :: evs, p)
          | None => None
          end
        end
      | State1 =>
        let wp := d_wp d in
        let '(r, w') := w_call (w wp) in
        let d := set_wp d (set_w wp w') in
        match r with
        | Fail e =>
          Some (set_state d State99, [EvProduce r],
                PendingPost (Some e) true)
        | Suspended => Some (d, [EvProduce r], PendingResume)
        | Emit buffers done =>
          Some (set_state d (next_state (chunked wp) done), [EvProduce r],
                PendingWrite HeaderAndBody (sb wp)
                             (frame (chunked wp) buffers))
        end
      | State2 =>
        op_loop n m (set_state (set_wp d (consume (d_wp d))) State3) None
      | State3 =>
        let wp := d_wp d in
        let '(r, w') := w_call (w wp) in
        let d := set_wp d (set_w wp w') in
        match r with
        | Fail e =>
          match op_loop n m (set_state d State99) (Some e) with
          | Some (d, evs, p) => Some (d, EvProduce r :: evs, p)
          | None => None
          end
        | Suspended => Some (d, [EvProduce r], PendingResume)
        | Emit buffers done =>
          Some (set_state d (next_state (chunked wp) done), [EvProduce r],
                PendingWrite BodyOnly [] (frame (chunked wp) buffers))
        end
      | State4 =>
        Some (set_state d State5, [],
              PendingWrite FinalChunk [] chunk_encode_final)
      | State5 =>
        op_loop n m (set_state d State99)
                (if close (d_wp d) then Some asio_eof else None)
      end
    end
  end.

(** [operator()(ec, bytes_transferred, again)] *)
Definition op_call (m : message) (d : data) (ec : error_code) (again : bool)
  : option (data * list event * pending) :=
  op_loop 3 m (set_cont d (cont d || again)) ec.

(** The io_service and the stream around the operation: whatever the call
    left pending happens, and the operation is entered again. *)
Fixpoint async_run (fuel : nat) (m : message) (d : data) (ec : error_code)
    (again : bool) (s : Stream) {struct fuel} : run_result :=
  match fuel with
  | O => out_of_fuel
  | S fuel =>
    match op_call m d ec again with
    | None => out_of_fuel
    | Some (d, evs, p) =>
      EvEnter ::> emit_evs evs
      match p with
      | Completed ec => ret ec
      | PendingWrite k from_sb dat =>
        let '(r, s) := asio_write s (from_sb ++ dat) in
        EvWrite k from_sb dat r ::> async_run fuel m d r true s
      | PendingPost ec again => async_run fuel m d ec again s
      | PendingResume =>
        EvResume ::> async_run fuel m (set_cont d false) None false s
      end
    end
  end.

(** [async_write(stream, msg, token)]: the constructor of [write_op] builds
    the shared state and makes the first call. *)
Definition async_write (fuel : nat) (is_continuation : bool) (m : message)
    (s : Stream) : run_result :=
  async_run fuel m
            {| d_wp := prepare m; cont := is_continuation; state := State0 |}
            None false s.

(** Either engine, by name. *)
Definition run (eng : engine) (fuel : nat) (m : message) (s : Stream)
  : run_result :=
  match eng with
  | Sync => write fuel m s
  | Async c => async_write fuel c m s
  end.

(** ** The runs of the two engines as derivations

    The same runs once more, as relations with one rule per path through
    the code.  The lemmas [write_loop_sound] and [async_run_sound] below
    show that every result of the functions above has a derivation; the
    properties are then proved by induction on derivations.  [ch] and [cl]
    are [wp.chunked] and [wp.close], [wr] the writer and [hd] the content
    of [wp.sb]. *)

Inductive sync_run (ch cl : bool)
  : bool -> Writer -> bytes -> Stream -> trace -> outcome -> Prop :=
| SyncCut inner wr hd s :
    sync_run ch cl inner wr hd s [] OutOfFuel
| SyncFail inner wr hd s e w' :
    w_call wr = (Fail e, w') ->
    sync_run ch cl inner wr hd s
      [EvProduce (Fail e); EvComplete (Some e)] (Finished (Some e))
| SyncBodyErr wr hd s b dn w' e s' :
    w_call wr = (Emit b dn, w') ->
    asio_write s (frame ch b) = (Some e, s') ->
    sync_run ch cl true wr hd s
      [EvProduce (Emit b dn); EvWrite BodyOnly [] (frame ch b) (Some e);
       EvComplete (Some e)] (Finished (Some e))
| SyncBodyMore wr hd s b w' s' tr o :
    w_call wr = (Emit b false, w') ->
    asio_write s (frame ch b) = (None, s') ->
    sync_run ch cl true w' hd s' tr o ->
    sync_run ch cl true wr hd s
      (EvProduce (Emit b false) :: EvWrite BodyOnly [] (frame ch b) None
       :: tr) o
| SyncBodyDone wr hd s b w' s' tr o :
    w_call wr = (Emit b true, w') ->
    asio_write s (frame ch b) = (None, s') ->
    sync_run ch cl false w' hd s' tr o ->
    sync_run ch cl true wr hd s
      (EvProduce (Emit b true) :: EvWrite BodyOnly [] (frame ch b) None
       :: tr) o
| SyncBodyWait wr hd s w' tr o :
    w_call wr = (Suspended, w') ->
    sync_run ch cl true w' hd s tr o ->
    sync_run ch cl true wr hd s (EvProduce Suspended :: EvResume :: tr) o
| SyncHeadErr wr hd s b dn w' e s' :
    w_call wr = (Emit b dn, w') ->
    asio_write s (hd ++ frame ch b) = (Some e, s') ->
    sync_run ch cl false wr hd s
      [EvProduce (Emit b dn); EvWrite HeaderAndBody hd (frame ch b) (Some e);
       EvComplete (Some e)] (Finished (Some e))
| SyncHeadDone wr hd s b w' s' tr o :
    w_call wr = (Emit b true, w') ->
    asio_write s (hd ++ frame ch b) = (None, s') ->
    write_tail ch cl s' = (tr, o) ->
    sync_run ch cl false wr hd s
      (EvProduce (Emit b true) :: EvWrite HeaderAndBody hd (frame ch b) None
       :: tr) o
| SyncHeadMore wr hd s b w' s' tr o :
    w_call wr = (Emit b false, w') ->
    asio_write s (hd ++ frame ch b) = (None, s') ->
    sync_run ch cl true w' [] s' tr o ->
    sync_run ch cl false wr hd s
      (EvProduce (Emit b false) :: EvWrite HeaderAndBody hd (frame ch b) None
       :: tr) o
| SyncHeadFlushErr wr hd s w' e s' :
    w_call wr = (Suspended, w') ->
    asio_write s hd = (Some e, s') ->
    sync_run ch cl false wr hd s
      [EvProduce Suspended; EvWrite HeaderOnly hd [] (Some e);
       EvComplete (Some e)] (Finished (Some e))
| SyncHeadFlush wr hd s w' s' tr o :
    w_call wr = (Suspended, w') ->
    asio_write s hd = (None, s') ->
    sync_run ch cl true w' [] s' tr o ->
    sync_run ch cl false wr hd s
      (EvProduce Suspended :: EvWrite HeaderOnly hd [] None
       :: EvResume :: tr) o.

(** Where a run of [write_op] stands: about to enter [operator()] with the
    error code [ec], or inside it with no error so far; in state [st]. *)
Inductive point : Type :=
| Entry (ec : error_code) (st : op_state)
| Inside (st : op_state).

Inductive async_at (m : message) (ch cl : bool)
  : point -> Writer -> bytes -> Stream -> trace -> outcome -> Prop :=
| AtCut ec st wr hd s :
    async_at m ch cl (Entry ec st) wr hd s [] OutOfFuel
| AtEnterErr e st wr hd s :
    async_at m ch cl (Entry (Some e) st) wr hd s
      [EvEnter; EvComplete (Some e)] (Finished (Some e))
| AtEnter st wr hd s tr o :
    async_at m ch cl (Inside st) wr hd s tr o ->
    async_at m ch cl (Entry None st) wr hd s (EvEnter :: tr) o
| AtInitFail wr hd s e w' tr o :
    w_init wr = (Some e, w') ->
    async_at m ch cl (Entry (Some e) State99) w' hd s tr o ->
    async_at m ch cl (Inside State0) wr hd s (EvInit (Some e) :: tr) o
| AtInit wr hd s w' tr o :
    w_init wr = (None, w') ->
    async_at m ch cl (Inside State1) w' (header m) s tr o ->
    async_at m ch cl (Inside State0) wr hd s (EvInit None :: tr) o
| AtHeadFail wr hd s e w' tr o :
    w_call wr = (Fail e, w') ->
    async_at m ch cl (Entry (Some e) State99) w' hd s tr o ->
    async_at m ch cl (Inside State1) wr hd s (EvProduce (Fail e) :: tr) o
| AtHeadWait wr hd s w' tr o :
    w_call wr = (Suspended, w') ->
    async_at m ch cl (Entry None State1) w' hd s tr o ->
    async_at m ch cl (Inside State1) wr hd s
      (EvProduce Suspended :: EvResume :: tr) o
| AtHead wr hd s b dn w' r s' tr o :
    w_call wr = (Emit b dn, w') ->
    asio_write s (hd ++ frame ch b) = (r, s') ->
    async_at m ch cl (Entry r (next_state ch dn)) w' hd s' tr o ->
    async_at m ch cl (Inside State1) wr hd s
      (EvProduce (Emit b dn) :: EvWrite HeaderAndBody hd (frame ch b) r
       :: tr) o
| AtConsume wr hd s tr o :
    async_at m ch cl (Inside State3) wr [] s tr o ->
    async_at m ch cl (Inside State2) wr hd s tr o
| AtBodyFail wr hd s e w' :
    w_call wr = (Fail e, w') ->
    async_at m ch cl (Inside State3) wr hd s
      [EvProduce (Fail e); EvComplete (Some e)] (Finished (Some e))
| AtBodyWait wr hd s w' tr o :
    w_call wr = (Suspended, w') ->
    async_at m ch cl (Entry None State3) w' hd s tr o ->
    async_at m ch cl (Inside State3) wr hd s
      (EvProduce Suspended :: EvResume :: tr) o
| AtBody wr hd s b dn w' r s' tr o :
    w_call wr = (Emit b dn, w') ->
    asio_write s (frame ch b) = (r, s') ->
    async_at m ch cl (Entry r (next_state ch dn)) w' hd s' tr o ->
    async_at m ch cl (Inside State3) wr hd s
      (EvProduce (Emit b dn) :: EvWrite BodyOnly [] (frame ch b) r :: tr) o
| AtFinal wr hd s r s' tr o :
    asio_write s chunk_encode_final = (r, s') ->
    async_at m ch cl (Entry r State5) wr hd s' tr o ->
    async_at m ch cl (Inside State4) wr hd s
      (EvWrite FinalChunk [] chunk_encode_final r :: tr) o
| AtClose wr hd s :
    async_at m ch cl (Inside State5) wr hd s
      [EvComplete (if cl then Some asio_eof else None)]
      (Finished (if cl then Some asio_eof else None))
| AtDone wr hd s :
    async_at m ch cl (Inside State99) wr hd s
      [EvComplete None] (Finished None).

(** A run from either entry point. *)
Inductive run_shape (m : message) (s : Stream) (tr : trace) (o : outcome)
  : engine -> Prop :=
| ShapeInitFail e w' :
    w_init (body m) = (Some e, w') ->
    tr = [EvInit (Some e); EvComplete (Some e)] ->
    o = Finished (Some e) ->
    run_shape m s tr o Sync
| ShapeSync w' tr' :
    w_init (body m) = (None, w') ->
    tr = EvInit None :: tr' ->
    sync_run (msg_chunked m) (msg_close m) false w' (header m) s tr' o ->
    run_shape m s tr o Sync
| ShapeAsync c :
    async_at m (msg_chunked m) (msg_close m) (Entry None State0) (body m) []
             s tr o ->
    run_shape m s tr o (Async c).

End Engines.

Arguments header {Writer} _.
Arguments msg_chunked {Writer} _.
Arguments msg_close {Writer} _.
Arguments content_length {Writer} _.
Arguments body {Writer} _.

(** ** Reading a trace *)

(** The bytes of one stream write. *)
Fixpoint payloads (t : trace) : list bytes :=
  match t with
  | [] => []
  | EvWrite _ from_sb dat _ :: t => (from_sb ++ dat) :: payloads t
  | _ :: t => payloads t
  end.


(** The slices the writer handed to [emit], in order. *)
Fixpoint slices (t : trace) : list bytes :=
  match t with
  | [] => []
  | EvProduce (Emit b _) :: t => b :: slices t
  | _ :: t => slices t
  end.

(** The error an event reports, if it reports one. *)
Definition event_error (e : event) : error_code :=
  match e with
  | EvInit r => r
  | EvProduce (Fail e) => Some e
  | EvWrite _ _ _ r => r
  | _ => None
  end.

Definition event_ok (e : event) : bool :=
  match event_error e with
  | Some _ => false
  | None => true
  end.

(** No body error and no stream error in the run. *)
Definition trace_ok (t : trace) : bool := forallb event_ok t.


(** The results of the calls of the writer, in order. *)
Fixpoint calls (t : trace) : list produce_result :=
  match t with
  | [] => []
  | EvProduce r :: t => r :: calls t
  | _ :: t => calls t
  end.

Definition is_done (r : produce_result) : bool :=
  match r with
  | Emit _ true => true
  | _ => false
  end.

(** The writer is called again after it has reported the end of the body. *)
Fixpoint calls_after_done (t : trace) : bool :=
  match t with
  | [] => false
  | EvProduce r :: t =>
    if is_done r then negb (Nat.eqb (length (calls t)) 0)
    else calls_after_done t
  | _ :: t => calls_after_done t
  end.

(** How often the caller is given a result. *)
Fixpoint completions (t : trace) : nat :=
  match t with
  | [] => 0
  | EvComplete _ :: t => S (completions t)
  | _ :: t => completions t
  end.

(** How often [operator()] is entered, and how often the writer suspends. *)
Fixpoint enters (t : trace) : nat :=
  match t with
  | [] => 0
  | EvEnter :: t => S (enters t)
  | _ :: t => enters t
  end.

Fixpoint suspensions (t : trace) : nat :=
  match t with
  | [] => 0
  | EvProduce Suspended :: t => S (suspensions t)
  | _ :: t => suspensions t
  end.

(** No stream write before the next invocation of the resume context. *)
Fixpoint no_write_until_resume (t : trace) : bool :=
  match t with
  | [] => true
  | EvResume :: _ => true
  | EvWrite _ _ _ _ :: _ => false
  | _ :: t => no_write_until_resume t
  end.

(** After every suspension nothing is written until the resume context is
    invoked. *)
Fixpoint quiet_suspensions (t : trace) : bool :=
  match t with
  | [] => true
  | EvProduce Suspended :: t => no_write_until_resume t && quiet_suspensions t
  | _ :: t => quiet_suspensions t
  end.

(** The errors the events of a run report, in order. *)
Fixpoint errors (t : trace) : list errc :=
  match t with
  | [] => []
  | ev :: t =>
    match event_error ev with
    | Some e => e :: errors t
    | None => errors t
    end
  end.

(** Once an event has reported an error, nothing is written any more. *)
Fixpoint quiet_after_error (t : trace) : bool :=
  match t with
  | [] => true
  | ev :: t =>
    match event_error ev with
    | Some _ => Nat.eqb (length (payloads t)) 0
    | None => quiet_after_error t
    end
  end.










(** A trace up to and including its first stream write. *)
Fixpoint until_write (t : trace) : trace :=
  match t with
  | [] => []
  | EvWrite k from_sb dat r :: _ => [EvWrite k from_sb dat r]
  | ev :: t => ev :: until_write t
  end.

(** A trace up to the write of the slice with which the writer first
    reports the end of the body. *)
Fixpoint until_done (t : trace) : trace :=
  match t with
  | [] => []
  | EvProduce r :: t =>
    EvProduce r :: (if is_done r then until_write t else until_done t)
  | ev :: t => ev :: until_done t
  end.

(** The state of a point, and the points from which the operation still
    has work to do. *)
Definition point_state (p : point) : op_state :=
  match p with
  | Entry _ st => st
  | Inside st => st
  end.

Definition live (p : point) : Prop :=
  match p with
  | Entry (Some _) _ => False
  | _ => True
  end.


(** ** Concrete writers and streams *)

(** A writer that plays a script; past its end it keeps reporting the end
    of the body with an empty slice, the way a file reader at end of file
    does. *)
Definition script := list produce_result.

Definition script_call (l : script) : produce_result * script :=
  match l with
  | [] => (Emit [] true, [])
  | r :: l => (r, l)
  end.

Definition script_init (l : script) : error_code * script := (None, l).

Definition script_init_fail (e : errc) (l : script) : error_code * script :=
  (Some e, l).

(** A stream that accepts [n] writes and fails the next ones. *)
Definition budget_write (e : errc) (n : nat) (_ : bytes) : error_code * nat :=
  match n with
  | O => (Some e, O)
  | S n => (None, n)
  end.

Definition str (s : String.string) : bytes := String.list_ascii_of_string s.

(** The engines over scripted writers and a stream with a write budget;
    a failing stream write reports error 32. *)
Definition demo_run (eng : engine) (fuel : nat) (m : message script)
    (budget : nat) : run_result :=
  run script_init script_call (budget_write (errc_code 32)) eng fuel m budget.

Definition trace_of (r : run_result) : trace := fst r.

Definition outcome_of (r : run_result) : outcome := snd r.


(** A status line of 17 bytes. *)
Definition demo_header : bytes := str "HTTP/1.1 200 OK"%string ++ CRLF.

Definition demo_message (ch cl : bool) (len : nat) (sc : script)
  : message script :=
  {| header := demo_header; msg_chunked := ch; msg_close := cl;
     content_length := len; body := sc |}.

(** hello, then world, with a suspension before each slice. *)
Definition hello_world : script :=
  [Suspended; Emit (str "hello"%string) false;
   Suspended; Emit (str "world"%string) true].

(** A suspension, then the end of the body with an empty slice. *)
Definition empty_last : script := [Suspended; Emit [] true].

(** Two slices without any suspension; past the script the writer repeats
    the end of the body. *)
Definition two_slices : script :=
  [Emit (str "hello"%string) false; Emit (str "world"%string) true].

(** The writer fails on its second call. *)
Definition fails_second : script :=
  [Emit (str "hello"%string) false; Fail (errc_code 5);
   Emit (str "world"%string) true].


(** A suspension, then a failure. *)
Definition suspends_then_fails : script := [Suspended; Fail (errc_code 5)].

Arguments chunk_encode_final : simpl never.

(** ** Reading a run of [write_op] call by call *)

(** [asio_handler_is_continuation(op)] returns [op->d_->cont]. *)
Definition asio_handler_is_continuation (Writer : Type) (d : data Writer)
  : bool :=
  cont d.

(** The order in which [operator()] moves through the values of [d.state]:
    2 and 3 alternate while the body is written, so they share a rank. *)
Definition state_rank (st : op_state) : nat :=
  match st with
  | State0 => 0
  | State1 => 1
  | State2 | State3 => 2
  | State4 => 3
  | State5 => 4
  | State99 => 5
  end.

(** The events of the call of [operator()] that the constructor of
    [write_op] makes: what follows the first entry, up to the second. *)
Fixpoint until_enter (t : trace) : trace :=
  match t with
  | [] => []
  | EvEnter :: _ => []
  | ev :: t => ev :: until_enter t
  end.

Definition first_call (t : trace) : trace :=
  match t with
  | EvEnter :: t => until_enter t
  | _ => []
  end.

(** The stream writes that carry the slices [bs] one by one, the first of
    them behind the header block [hdr], and the final chunk in a write of
    its own. *)
Definition tail_writes (ch : bool) : list bytes :=
  if ch then [chunk_encode_final] else [].

Definition expected_writes (ch : bool) (hdr : bytes) (bs : list bytes)
  : list bytes :=
  match bs with
  | [] => []
  | b :: bs => (hdr ++ frame ch b) :: map (frame ch) bs
  end ++ tail_writes ch.

(** The same from a state of [write_op] on: what is still to be written for
    the slices [bs] that are still to come. *)
Definition writes_from (ch : bool) (hdr : bytes) (st : op_state) (hd : bytes)
    (bs : list bytes) : list bytes :=
  match st with
  | State0 => expected_writes ch hdr bs
  | State1 => expected_writes ch hd bs
  | State2 | State3 => map (frame ch) bs ++ tail_writes ch
  | State4 => [chunk_encode_final]
  | State5 | State99 => []
  end.

(** The writer comes to an end within [n] calls: one of its next [n] calls
    reports the end of the body or fails. *)
Fixpoint ends_within (Writer : Type)
    (w_call : Writer -> produce_result * Writer) (n : nat) (wr : Writer)
  : bool :=
  match n with
  | O => false
  | S n =>
    match w_call wr with
    | (Emit _ true, _) => true
    | (Fail _, _) => true
    | (_, w') => ends_within w_call n w'
    end
  end.

(** * The completion condition of examples/read_until_delim.cpp

    [until_delimiter] builds a completion condition for [asio::read]: it
    stops the read once a delimiter string has been seen.  The buffer the
    iterators range over is a list of bytes here, and an iterator is the
    offset of its position from the start of that buffer. *)

Section Delimiter.

Local Open Scope Z_scope.

(** [size_t] is 64 bits wide, and so is the difference type an iterator is
    moved by; an unsigned value that is handed to iterator arithmetic is
    read as a signed one. *)
Definition size_t_of (z : Z) : Z := z mod 2 ^ 64.

Definition difference_of (z : Z) : Z :=
  if z <? 2 ^ 63 then z else z - 2 ^ 64.

Definition size (b : bytes) : Z := Z.of_nat (length b).

(** ** [std::search]

    The search of the standard library, as its reference implementation
    runs: from every position of [first, last) in turn the pattern is
    compared element by element; the first position where the pattern is
    exhausted is returned, and [last] as soon as the text is exhausted. *)
Inductive search_step : Type :=
| SubFound       (* the pattern is exhausted: s_it == s_last *)
| SubAtLast      (* the text is exhausted: it == last *)
| SubMismatch.   (* the two elements differ *)

Fixpoint search_compare (buf : bytes) (it last : nat) (s : bytes)
  : search_step :=
  match s with
  | [] => SubFound
  | c :: s' =>
    if Nat.eqb it last then SubAtLast
    else match nth_error buf it with
         | Some x =>
           if Ascii.eqb x c then search_compare buf (S it) last s'
           else SubMismatch
         | None => SubMismatch
         end
  end.

Fixpoint search_from (fuel : nat) (buf : bytes) (first last : nat) (s : bytes)
  : nat :=
  match search_compare buf first last s with
  | SubFound => first
  | SubAtLast => last
  | SubMismatch =>
    match fuel with
    | O => last
    | S fuel => search_from fuel buf (S first) last s
    end
  end.

Definition std_search (buf : bytes) (first last : nat) (s : bytes) : nat :=
  search_from (last - first) buf first last s.

(** ** [until_delimiter_condition] *)

(** [cursor] is a reference to an iterator of the caller; the caller reads
    it back from the condition after the call. *)
Record until_delimiter_condition : Type := {
  cursor : Z;
  delim : bytes;
  left_pad : Z;
  prev_n : Z
}.

Definition until_delimiter (cursor : Z) (delim : bytes) (left_pad : Z)
  : until_delimiter_condition :=
  {| cursor := cursor; delim := delim; left_pad := left_pad; prev_n := 0 |}.

(** [boost::asio::transfer_all()(ec, n)]: 0 on error, else Boost's default
    maximum transfer size. *)
Definition default_max_transfer_size : Z := 65536.

Definition transfer_all (ec : error_code) (n : Z) : Z :=
  match ec with
  | Some _ => 0
  | None => default_max_transfer_size
  end.

(** [operator()(ec, n)].  The result is the returned size and the condition
    after the call.  [std::search] needs a valid range inside the buffer;
    where [first] and [last] are no such range the call has no defined
    behaviour and the result is [None]. *)
Definition condition_call (buf : bytes) (c : until_delimiter_condition)
    (ec : error_code) (n : Z) : option (Z * until_delimiter_condition) :=
  let first :=
    cursor c - difference_of (Z.min (size_t_of (size (delim c) - 1))
                                    (size_t_of (prev_n c + left_pad c))) in
  let last := cursor c + difference_of (size_t_of (n - prev_n c)) in
  if (0 <=? first) && (first <=? last) && (last <=? size buf) then
    let found :=
      Z.of_nat (std_search buf (Z.to_nat first) (Z.to_nat last) (delim c)) in
    let c' := {| cursor := found; delim := delim c;
                 left_pad := left_pad c; prev_n := n |} in
    Some (if found =? last then transfer_all ec n else 0, c')
  else None.

(** [asio::read] is Boost's.  Of it only the protocol with its completion
    condition is used: the condition is called with the total number of
    bytes read so far, a number that never goes down, and the read stops at
    the first call that returns 0.  [totals] are the totals of the
    successive calls; the result tells whether the condition stopped the
    read. *)
Fixpoint consult (buf : bytes) (c : until_delimiter_condition)
    (totals : list Z) : option (bool * until_delimiter_condition) :=
  match totals with
  | [] => Some (false, c)
  | n :: totals =>
    match condition_call buf c None n with
    | None => None
    | Some (r, c') =>
      if r =? 0 then Some (true, c') else consult buf c' totals
    end
  end.

(** Totals that start at [prev] or above, never go down, and stay within
    the capacity [cap] of the buffer that is read into. *)
Fixpoint totals_ok (prev cap : Z) (totals : list Z) : Prop :=
  match totals with
  | [] => True
  | n :: totals => prev <= n <= cap /\ totals_ok n cap totals
  end.

(** ** Occurrences of a delimiter *)

Definition occurs_in (buf s : bytes) (last p : nat) : Prop :=
  (p + length s <= last)%nat /\ firstn (length s) (skipn p buf) = s.

(** The bytes of [buf] from offset [p] on start with [d]. *)
Definition occurs_at (buf d : bytes) (p : Z) : Prop :=
  0 <= p /\ firstn (length d) (skipn (Z.to_nat p) buf) = d.

(** [p] is the first offset from [lo] on where [d] occurs, and that
    occurrence ends at or before [hi]. *)
Definition first_occurrence (buf d : bytes) (lo hi p : Z) : Prop :=
  lo <= p /\ p + size d <= hi /\ occurs_at buf d p /\
  forall q, lo <= q < p -> ~ occurs_at buf d q.

(** [d] occurs nowhere from [lo] on with its end at or before [hi]. *)
Definition no_occurrence (buf d : bytes) (lo hi : Z) : Prop :=
  forall q, lo <= q -> q + size d <= hi -> ~ occurs_at buf d q.

(** The leftmost offset the calls of a condition ever look at: the first
    call backtracks from [cursor_0 = c0] by the length of the delimiter
    less one, or by the left pad if that is shorter. *)
Definition window_start (c0 : Z) (d : bytes) (left_pad : Z) : Z :=
  c0 - Z.min (size d - 1) left_pad.

(** A condition that has not matched yet, [prev_n] bytes into the read. *)
Definition searching (buf : bytes) (c0 : Z) (c : until_delimiter_condition)
  : Prop :=
  cursor c = c0 + prev_n c /\ 0 <= prev_n c /\ 0 <= left_pad c <= c0 /\
  c0 + prev_n c <= size buf /\ size buf < 2 ^ 63 /\
  size (delim c) < 2 ^ 63 /\
  no_occurrence buf (delim c) (window_start c0 (delim c) (left_pad c))
                (c0 + prev_n c).

(** ** The two reads of [main] *)

Definition header_delim : bytes := CRLF ++ CRLF.

Definition body_delim : bytes := str "01234567890123456789"%string.

(** [asio::buffer(b, n)]: the first [n] bytes of [b], all of [b] when it
    is shorter.  [b + n]: [b] without its first [n] bytes. *)
Definition asio_buffer (b : bytes) (n : Z) : bytes := firstn (Z.to_nat n) b.

Definition buffer_plus (b : bytes) (n : Z) : bytes := skipn (Z.to_nat n) b.

(** What part one of [main] makes of the first read. *)
Inductive part_one : Type :=
| NeverSawHeader (overflow : bool)
| HeaderSeen (header_cursor body_prefix_size : Z)
             (header body_prefix : bytes).

(** Part one of [main] after its read: [n] is what [asio::read] returned and
    [header_cursor] where the condition left the cursor;
    [header_cursor_0] is the start of the buffer. *)
Definition split_header (header_buf : bytes) (n header_cursor : Z)
  : part_one :=
  let header_cursor_0 := 0 in
  if header_cursor =? header_cursor_0 + difference_of n then
    NeverSawHeader (n =? size header_buf)
  else
    let header_cursor :=
      header_cursor + difference_of (size header_delim) in
    let header_size := header_cursor - header_cursor_0 in
    let body_prefix_size := size_t_of (n - header_size) in
    HeaderSeen header_cursor body_prefix_size
      (asio_buffer header_buf (size_t_of header_size))
      (asio_buffer (buffer_plus header_buf (size_t_of header_size))
                   body_prefix_size).

(** Part two of [main] first asks a condition of its own whether the body
    prefix already holds the body delimiter:
    [until_delimiter(header_cursor, body_delim)({}, body_prefix_size)]. *)
Definition body_prefix_check (header_buf : bytes)
    (header_cursor body_prefix_size : Z)
  : option (Z * until_delimiter_condition) :=
  condition_call header_buf (until_delimiter header_cursor body_delim 0) None
                 body_prefix_size.

(** [beast::buffer_cat(body_prefix, body_suffix_buf)] is not in the sources
    at hand; as [main] uses it, it presents the two buffers as one sequence,
    the body prefix first.  The condition of the second read ranges over
    that sequence, and its cursor starts behind the body prefix. *)
Definition body_buf (body_prefix body_suffix_buf : bytes) : bytes :=
  body_prefix ++ body_suffix_buf.

Definition body_condition (body_prefix_size : Z)
  : until_delimiter_condition :=
  let body_cursor_0 := 0 + difference_of body_prefix_size in
  until_delimiter body_cursor_0 body_delim body_prefix_size.

End Delimiter.

(** ** Concrete buffers *)

(** A request of 37 bytes: a header of 27 bytes that ends with
    CR LF CR LF at offset 23, and the first ten bytes of the body. *)
Definition demo_request : bytes :=
  str "GET / HTTP/1.1"%string ++ CRLF ++ str "Host: a"%string ++ CRLF ++ CRLF
  ++ str "0123456789"%string.

(** What the second read brings: the second half of the body delimiter and
    three more bytes. *)
Definition demo_suffix : bytes := str "0123456789xyz"%string.

(** Four bytes that hold two dashes, and two bytes read behind them. *)
Definition demo_padded : bytes := str "a--bcd"%string.

(** * Properties *)

Lemma emit_ev_inv e r t o :
  e ::> r = (t, o) -> exists t', r = (t', o) /\ t = e :: t'.
Proof.
  destruct r as [t' o']. unfold emit_ev. simpl. intros H.
  injection H as <- <-. eauto.
Qed.

Lemma ret_inv ec0 t o :
  ret ec0 = (t, o) -> t = [EvComplete ec0] /\ o = Finished ec0.
Proof. unfold ret. intros H. injection H as <- <-. auto. Qed.

Lemma out_of_fuel_inv t o : out_of_fuel = (t, o) -> t = [] /\ o = OutOfFuel.
Proof. unfold out_of_fuel. intros H. injection H as <- <-. auto. Qed.

Ltac inv_run :=
  repeat match goal with
  | H : _ ::> _ = (_, _) |- _ =>
      apply emit_ev_inv in H; let t := fresh "t" in destruct H as (t & H & ->)
  | H : ret _ = (_, _) |- _ => apply ret_inv in H; destruct H as [-> ->]
  | H : out_of_fuel = (_, _) |- _ =>
      apply out_of_fuel_inv in H; destruct H as [-> ->]
  end.

Create HintDb engine.
#[global] Hint Constructors sync_run async_at : engine.

(** Unfolding steps for the entry points and their loops. *)
Ltac step_write_loop H := cbn [write_loop] in H.
Ltac step_async_run H := cbn [async_run] in H.
Ltac open_write_tail_in H := unfold write_tail in H.
Ltac open_write H := unfold write, init in H.
Ltac open_async_write H := unfold async_write in H.
Ltac open_op_call H := unfold op_call in H.
Ltac step_write_loop_goal := cbn [write_loop].
Ltac step_async_run_goal := cbn [async_run].
Ltac open_op_call_goal := unfold op_call.
Ltac norm_wp :=
  cbn [chunked set_w sb w close consume set_wp set_state set_cont d_wp state
       cont] in *.
Ltac open_run_in H := unfold run, write, async_write, init in H.
Ltac open_run := unfold run, write, async_write, init.

Section Properties.

Variable Writer : Type.
Variable w_init : Writer -> error_code * Writer.
Variable w_call : Writer -> produce_result * Writer.
Variable Stream : Type.
Variable asio_write : Stream -> bytes -> error_code * Stream.

Local Abbreviation write_loop := (write_loop w_call asio_write).
Local Abbreviation write_tail := (write_tail asio_write).
Local Abbreviation write := (write w_init w_call asio_write).
Local Abbreviation async_run := (async_run w_init w_call asio_write).
Local Abbreviation async_write := (async_write w_init w_call asio_write).
Local Abbreviation sync_run := (sync_run w_call asio_write).
Local Abbreviation async_at := (async_at w_init w_call asio_write).
Local Abbreviation run := (run w_init w_call asio_write).
Local Abbreviation run_shape := (run_shape w_init w_call asio_write).

Ltac split_calls H :=
  repeat match type of H with
  | context [w_init ?x] =>
      let Hi := fresh "Hinit" in
      destruct (w_init x) as [[?|] ?] eqn:Hi; simpl in H
  | context [w_call ?x] =>
      let Hc := fresh "Hcall" in
      destruct (w_call x) as [[? [|]| |?] ?] eqn:Hc; simpl in H
  | context [asio_write ?s ?p] =>
      let Hw := fresh "Hwrite" in
      destruct (asio_write s p) as [[?|] ?] eqn:Hw; simpl in H
  end.

Ltac split_calls_both H :=
  repeat match type of H with
  | context [w_init ?x] =>
      let Hi := fresh "Hinit" in
      destruct (w_init x) as [[?|] ?] eqn:Hi; simpl in H |- *
  | context [w_call ?x] =>
      let Hc := fresh "Hcall" in
      destruct (w_call x) as [[? [|]| |?] ?] eqn:Hc; simpl in H |- *
  | context [asio_write ?s ?p] =>
      let Hw := fresh "Hwrite" in
      destruct (asio_write s p) as [[?|] ?] eqn:Hw; simpl in H |- *
  end.

(** ** Every result of the functions has a derivation *)

Lemma write_loop_sound fuel :
  forall inner (wp : write_preparation Writer) s tr o,
  write_loop fuel inner wp s = (tr, o) ->
  sync_run (chunked wp) (close wp) inner (w wp) (sb wp) s tr o.
Proof.
  induction fuel as [|fuel IH]; intros inner wp s tr o H.
  - simpl in H. inv_run. constructor.
  - step_write_loop H.
    destruct inner; split_calls H; inv_run;
      try (apply IH in H; simpl in H); eauto with engine.
Qed.

Lemma async_run_sound fuel : forall m d ec again s tr o,
  async_run fuel m d ec again s = (tr, o) ->
  async_at m (chunked (d_wp d)) (close (d_wp d)) (Entry ec (state d))
           (w (d_wp d)) (sb (d_wp d)) s tr o.
Proof.
  induction fuel as [|fuel IH]; intros m d ec again s tr o H.
  - simpl in H. inv_run. constructor.
  - step_async_run H.
    destruct d as [[wr hd ch cl] c st].
    destruct ec as [e|].
    + simpl in H. inv_run. constructor.
    + open_op_call H; destruct st; simpl in H;
      unfold init in H; simpl in H; split_calls H;
      try match type of H with
          | context [if cl then _ else _] => destruct cl; simpl in H
          end; inv_run;
      try (apply IH in H; simpl in H); simpl; eauto 6 with engine.
      all: constructor; apply (AtClose w_init w_call asio_write).
Qed.

Lemma run_sound eng fuel m s tr o :
  run eng fuel m s = (tr, o) -> run_shape m s tr o eng.
Proof.
  destruct eng as [|c]; simpl; intros H.
  - open_write H. simpl in H.
    destruct (w_init (body m)) as [[e|] w'] eqn:Hinit; simpl in H; inv_run.
    + eapply ShapeInitFail; eauto.
    + apply write_loop_sound in H. simpl in H. eapply ShapeSync; eauto.
  - open_async_write H. apply async_run_sound in H.
    simpl in H. eapply ShapeAsync; eauto.
Qed.

(** ** What reaches the stream *)

Lemma write_tail_inv ch cl s tr o :
  write_tail ch cl s = (tr, o) ->
  (ch = false /\ tr = [EvComplete (if cl then Some asio_eof else None)] /\
   o = Finished (if cl then Some asio_eof else None)) \/
  (ch = true /\ exists e,
     tr = [EvWrite FinalChunk [] chunk_encode_final (Some e);
           EvComplete (Some e)] /\ o = Finished (Some e)) \/
  (ch = true /\
   tr = [EvWrite FinalChunk [] chunk_encode_final None;
         EvComplete (if cl then Some asio_eof else None)] /\
   o = Finished (if cl then Some asio_eof else None)).
Proof.
  intros H. open_write_tail_in H. destruct ch.
  - destruct (asio_write s chunk_encode_final) as [[e|] s']; inv_run;
      eauto 6.
  - inv_run. auto.
Qed.

Ltac tail_cases H :=
  apply write_tail_inv in H;
  let Hch := fresh "Hch" in
  destruct H as [(Hch & -> & ->)|[(Hch & ? & -> & ->)|(Hch & -> & ->)]];
  try discriminate Hch; try subst.

Lemma entry_err_inv m ch cl e st wr hd s tr o :
  async_at m ch cl (Entry (Some e) st) wr hd s tr o ->
  (tr = [] /\ o = OutOfFuel) \/
  (tr = [EvEnter; EvComplete (Some e)] /\ o = Finished (Some e)).
Proof. inversion 1; auto. Qed.

(** Splits the result [r] of a stream write in a rule of [async_at]: the
    failed write leads to an entry with an error, which is inverted. *)
Ltac entry_cases :=
  repeat match goal with
  | H : async_at _ _ _ (Entry (Some _) _) _ _ _ _ _ |- _ =>
      apply entry_err_inv in H; destruct H as [[-> ->]|[-> ->]]
  end.




Lemma async_late_calls m ch cl p wr hd s tr o :
  async_at m ch cl p wr hd s tr o ->
  match point_state p with
  | State4 | State5 | State99 => calls tr = []
  | _ => True
  end.
Proof.
  induction 1; simpl; auto.
  - destruct st; auto.
  - destruct st; auto.
Qed.

Lemma calls_nil_slices t : calls t = [] -> slices t = [].
Proof.
  induction t as [|[| r | | | |] t IH]; simpl; auto. discriminate.
Qed.


(** ** The result of a run without error *)



(** ** Errors *)

(** In a run, cut short or not, at most one event reports an error, and
    nothing is written after it.  The synchronous engine has returned that
    error by then; the asynchronous engine has called the handler with it,
    unless the run was cut before the call. *)
Lemma sync_errors ch cl inner wr hd s tr o :
  sync_run ch cl inner wr hd s tr o ->
  quiet_after_error tr = true /\
  match errors tr with
  | [] => True
  | [e] => o = Finished (Some e)
  | _ => False
  end.
Proof.
  induction 1; simpl; auto.
  tail_cases H1; simpl; auto.
Qed.

Lemma async_errors m ch cl p wr hd s tr o :
  async_at m ch cl p wr hd s tr o ->
  live p ->
  quiet_after_error tr = true /\
  match errors tr with
  | [] => True
  | [e] => o = Finished (Some e) \/ o = OutOfFuel
  | _ => False
  end.
Proof.
  induction 1; simpl; intros Hlive; try contradiction; auto;
    try (destruct r); entry_cases; simpl; auto.
Qed.

Lemma sync_completions ch cl inner wr hd s tr o :
  sync_run ch cl inner wr hd s tr o ->
  match o with
  | Finished ec => completions tr = 1 /\ In (EvComplete ec) tr
  | OutOfFuel => completions tr = 0
  end.
Proof.
  induction 1; simpl; auto; try (destruct o; intuition auto; fail).
  tail_cases H1; simpl; auto 8.
Qed.

Lemma async_completions m ch cl p wr hd s tr o :
  async_at m ch cl p wr hd s tr o ->
  match o with
  | Finished ec => completions tr = 1 /\ In (EvComplete ec) tr
  | OutOfFuel => completions tr = 0
  end.
Proof.
  induction 1; simpl; auto; try (destruct o; intuition auto; fail).
Qed.


Lemma trace_ok_errors t : trace_ok t = true <-> errors t = [].
Proof.
  induction t as [|ev t IH]; simpl; [tauto|].
  unfold event_ok. destruct (event_error ev); simpl; [|exact IH].
  split; discriminate.
Qed.

Lemma payloads_app t1 t2 : payloads (t1 ++ t2) = payloads t1 ++ payloads t2.
Proof.
  induction t1 as [|[| | k h d r | | |] t1 IH]; simpl; auto.
  now rewrite IH.
Qed.

Lemma errors_app t1 t2 : errors (t1 ++ t2) = errors t1 ++ errors t2.
Proof.
  induction t1 as [|ev t1 IH]; simpl; auto.
  destruct (event_error ev); simpl; now rewrite IH.
Qed.

Lemma payloads_cons_nil ev t : payloads (ev :: t) = [] -> payloads t = [].
Proof. destruct ev; simpl; auto; discriminate. Qed.

Lemma quiet_after_error_split pre ev post e :
  quiet_after_error (pre ++ ev :: post) = true ->
  event_error ev = Some e ->
  payloads post = [].
Proof.
  intros Hq Hev. induction pre as [|x pre IH]; simpl in Hq.
  - rewrite Hev in Hq. apply Nat.eqb_eq, length_zero_iff_nil in Hq. exact Hq.
  - destruct (event_error x); [|auto].
    apply Nat.eqb_eq, length_zero_iff_nil in Hq.
    rewrite payloads_app in Hq. apply app_eq_nil in Hq.
    apply (payloads_cons_nil ev), Hq.
Qed.

Lemma single_error (P : errc -> Prop) l :
  match l with
  | [] => True
  | [e] => P e
  | _ => False
  end ->
  forall e, In e l -> P e.
Proof.
  destruct l as [|e0 [|e1 l]]; simpl; intros H e Hin; [tauto | | tauto].
  destruct Hin as [<-|[]]. exact H.
Qed.

(** The facts about errors, for either engine. *)
Lemma run_errors eng fuel m s tr o :
  run eng fuel m s = (tr, o) ->
  quiet_after_error tr = true /\
  (forall e, In e (errors tr) -> o = Finished (Some e) \/ o = OutOfFuel).
Proof.
  intros H. apply run_sound in H.
  destruct H as [e w' Hi -> -> | w' tr' Hi -> H | c H].
  - simpl. split; [reflexivity|]. intros e' [<-|[]]. auto.
  - apply sync_errors in H. destruct H as [Hq He]. simpl.
    split; [exact Hq|]. intros e Hin. left. revert e Hin.
    now apply single_error.
  - apply async_errors in H; [|exact I]. destruct H as [Hq He].
    split; [exact Hq|]. now apply single_error.
Qed.

Lemma run_completions eng fuel m s tr o :
  run eng fuel m s = (tr, o) ->
  match o with
  | Finished ec => completions tr = 1 /\ In (EvComplete ec) tr
  | OutOfFuel => completions tr = 0
  end.
Proof.
  intros H. apply run_sound in H.
  destruct H as [e w' Hi -> -> | w' tr' Hi -> H | c H].
  - simpl. auto.
  - apply sync_completions in H. destruct o; simpl; tauto.
  - apply async_completions in H. exact H.
Qed.


Lemma run_init_fail eng fuel m s tr o e w' :
  run eng fuel m s = (tr, o) ->
  w_init (body m) = (Some e, w') ->
  payloads tr = [].
Proof.
  intros H Hi. apply run_sound in H.
  destruct H as [e0 w0 Hi0 -> -> | w0 tr' Hi0 -> H | c H].
  - reflexivity.
  - congruence.
  - inversion H; subst; [reflexivity|].
    match goal with
    | Hx : async_at _ _ _ (Inside State0) _ _ _ _ _ |- _ =>
        inversion Hx; subst; [|congruence]
    end.
    entry_cases; reflexivity.
Qed.

(** ** Enough fuel *)

(** A run that has finished does not change when it is given more fuel. *)
Lemma write_loop_more fuel :
  forall inner (wp : write_preparation Writer) s tr ec,
  write_loop fuel inner wp s = (tr, Finished ec) ->
  write_loop (S fuel) inner wp s = (tr, Finished ec).
Proof.
  induction fuel as [|fuel IH]; intros inner wp s tr ec H;
    [unfold out_of_fuel in H; discriminate|].
  remember (S fuel) as f1 eqn:Hf1. step_write_loop_goal.
  rewrite Hf1 in H. step_write_loop H. norm_wp.
  destruct inner; split_calls H; inv_run;
    try (apply IH in H); try rewrite H; reflexivity.
Qed.

(** Once an error has been reported the asynchronous operation needs at
    most one more entry to call the handler with it; nothing is written on
    the way. *)
Lemma async_run_error fuel : forall m d ec again s tr o e,
  async_run fuel m d ec again s = (tr, o) ->
  In e (errors tr) \/ ec = Some e ->
  exists tr',
    async_run (S fuel) m d ec again s = (tr', Finished (Some e)) /\
    payloads tr' = payloads tr /\ completions tr' = 1.
Proof.
  induction fuel as [|fuel IH]; intros m d ec again s tr o e H Herr.
  - simpl in H. inv_run. destruct Herr as [[]| ->].
    step_async_run_goal. open_op_call_goal. simpl.
    eexists; split; [reflexivity|]; auto.
  - remember (S fuel) as f1 eqn:Hf1. step_async_run_goal.
    rewrite Hf1 in H. step_async_run H.
    destruct d as [[wr hd ch cl] c st].
    destruct ec as [e0|].
    + open_op_call H. open_op_call_goal. simpl in *. inv_run.
      destruct Herr as [[]|Heq]. injection Heq as <-.
      eexists; split; [reflexivity|]; auto.
    + destruct Herr as [Hin|]; [|discriminate].
      open_op_call H; open_op_call_goal; destruct st; simpl in H |- *;
      unfold init in H |- *; simpl in H |- *; split_calls_both H;
      try match type of H with
          | context [if cl then _ else _] => destruct cl; simpl in H |- *
          end; inv_run; simpl in Hin;
      try (exfalso; tauto);
      try (eapply IH in H;
           [ destruct H as (tr' & H & Hp & Hc); rewrite H; simpl;
             eexists; split; [reflexivity|]; simpl; split; congruence
           | intuition (subst; auto) ]).
      all: simpl; destruct Hin as [<-|[]];
        eexists; split; [reflexivity|]; auto.
Qed.

Lemma run_error_finishes eng fuel m s tr o e :
  run eng fuel m s = (tr, o) ->
  In e (errors tr) ->
  exists tr',
    run eng (S fuel) m s = (tr', Finished (Some e)) /\
    payloads tr' = payloads tr /\ completions tr' = 1.
Proof.
  intros H Hin. destruct eng as [|c].
  - assert (Ho : o = Finished (Some e)).
    { destruct (run_errors _ _ _ _ H) as [_ He].
      destruct (He e Hin) as [Ho|Ho]; [exact Ho|]. subst o.
      apply run_sound in H.
      inversion H as [e0 w' Hi Ht Ho | w' tr' Hi Ht Hs |]; subst;
        [discriminate|].
      apply sync_errors in Hs. destruct Hs as [_ Hs]. simpl in Hin.
      destruct (errors tr') as [|e1 [|e2 l]]; try contradiction.
      discriminate. }
    subst o. exists tr.
    destruct (run_completions _ _ _ _ H) as [Hc _].
    split; [|auto]. remember (S fuel) as f1 eqn:Hf1.
    revert H. open_run. cbn [prepare w].
    destruct (w_init (body m)) as [[e0|] w'] eqn:Hinit; auto.
    intros H. inv_run. apply write_loop_more in H.
    rewrite <- Hf1 in H. now rewrite H.
  - open_run_in H. open_run. eapply async_run_error; eauto.
Qed.

(** ** The claims about what reaches the stream and what the caller sees *)




(** C6.  When an event of a run, cut short or not, reports an error (the
    writer's init, a call of the writer, or a stream write), no stream write
    follows it; if the caller has been given a result, it is that very
    error, given once; and with one more unit of fuel the caller has been
    given it, once, without any further write.  When the writer's init
    fails nothing at all is written. *)
Theorem error_ends_the_write eng fuel m s tr o pre ev post e :
  run eng fuel m s = (tr, o) ->
  tr = pre ++ ev :: post ->
  event_error ev = Some e ->
  payloads post = [] /\
  (forall ec, o = Finished ec -> ec = Some e /\ completions tr = 1) /\
  (exists tr',
     run eng (S fuel) m s = (tr', Finished (Some e)) /\
     payloads tr' = payloads tr /\ completions tr' = 1) /\
  (forall e' w', w_init (body m) = (Some e', w') -> payloads tr = []).
Proof.
  intros H Htr Hev.
  destruct (run_errors _ _ _ _ H) as [Hq He].
  assert (Hin : In e (errors tr)).
  { rewrite Htr, errors_app. apply in_or_app. right.
    simpl. rewrite Hev. now left. }
  split; [|split; [|split]].
  - rewrite Htr in Hq. eapply quiet_after_error_split; eauto.
  - intros ec Ho. pose proof (run_completions _ _ _ _ H) as Hc.
    rewrite Ho in Hc. split; [|tauto].
    destruct (He e Hin) as [Hf|Hf]; congruence.
  - eapply run_error_finishes; eauto.
  - intros e' w' Hi. eapply run_init_fail; eauto.
Qed.

(** C10.  The close flag never hides an error: whatever error an event of
    the run reports is what the caller gets, at the latest with one more
    unit of fuel, also when the message asks for the connection to be
    closed; and when the caller gets [boost::asio::error::eof], either the
    run had no error at all or eof is the very error that occurred. *)
Theorem close_never_hides_error eng fuel m s tr o :
  run eng fuel m s = (tr, o) ->
  (forall e, In e (errors tr) ->
     (forall ec, o = Finished ec -> ec = Some e) /\
     snd (run eng (S fuel) m s) = Finished (Some e)) /\
  (o = Finished (Some asio_eof) ->
   trace_ok tr = true \/ In asio_eof (errors tr)).
Proof.
  intros H. destruct (run_errors _ _ _ _ H) as [_ He]. split.
  - intros e Hin. split.
    + intros ec Ho. destruct (He e Hin) as [Hf|Hf]; congruence.
    + edestruct run_error_finishes as (tr' & Hr & _);
        [exact H | exact Hin |].
      now rewrite Hr.
  - intros Ho. destruct (errors tr) as [|e l] eqn:Herr.
    + left. now apply trace_ok_errors.
    + right. destruct (He e (or_introl eq_refl)) as [Hf|Hf]; [|congruence].
      assert (e = asio_eof) by congruence. subst. now left.
Qed.

(** ** Suspension and the calls of the writer *)


Lemma async_calls_in_order m ch cl p wr hd s tr o :
  async_at m ch cl p wr hd s tr o ->
  calls_after_done tr = false.
Proof.
  induction 1; simpl; auto;
    destruct dn; simpl; auto;
    apply async_late_calls in H1; destruct ch; simpl in H1; now rewrite H1.
Qed.

(** The asynchronous engine respects the life cycle of the writer: once a
    call has reported the end of the body the writer is not called again. *)
Lemma async_never_calls_after_done c fuel m s tr o :
  run (Async c) fuel m s = (tr, o) ->
  calls_after_done tr = false.
Proof.
  intros H. apply run_sound in H. inversion H as [| |c' H']; subst.
  eapply async_calls_in_order; eauto.
Qed.


(** ** The final chunk *)







(** ** The header block *)






(** ** The two engines side by side *)









(** ** One call of [operator()] *)

(** X3.  Every call of [operator()] comes back within three passes through its
    [while] loop.  It leaves the two framing flags as they were, calls the
    writer at most once, never moves [d.state] backwards, and leaves
    [d.cont] set when it was set before or [again] was given. *)
Theorem op_call_returns m (d : data Writer) ec again :
  exists d' evs p,
    op_call w_init w_call m d ec again = Some (d', evs, p) /\
    asio_handler_is_continuation d' = (cont d || again)%bool /\
    chunked (d_wp d') = chunked (d_wp d) /\
    close (d_wp d') = close (d_wp d) /\
    length (calls evs) <= 1 /\
    state_rank (state d) <= state_rank (state d').
Proof.
  destruct d as [[wr hd ch cl] c st]. unfold asio_handler_is_continuation.
  destruct ec as [e|].
  - do 3 eexists. split; [reflexivity|]. simpl. repeat split; lia.
  - open_op_call_goal. destruct st; simpl; unfold init; simpl;
      repeat match goal with
      | |- context [w_init ?x] => destruct (w_init x) as [[?|] ?]; simpl
      | |- context [w_call ?x] =>
          destruct (w_call x) as [[? [|]| |?] ?]; simpl
      end;
      try (destruct cl; simpl);
      do 3 eexists; (split; [reflexivity|]); simpl;
      repeat split; try destruct ch; simpl; lia.
Qed.

(** ** The first call *)

Lemma entry_starts m ch cl ec st wr hd s tr o :
  async_at m ch cl (Entry ec st) wr hd s tr o ->
  (tr = [] /\ o = OutOfFuel) \/ exists t, tr = EvEnter :: t.
Proof. inversion 1; subst; eauto. Qed.

Lemma async_first_call m ch cl wr hd s tr o :
  async_at m ch cl (Entry None State0) wr hd s tr o ->
  completions (first_call tr) = 0 /\
  (forall ec, o = Finished ec -> 2 <= enters tr).
Proof.
  intros H.
  inversion H as [| |st0 wr0 hd0 s0 tr0 o0 H0| | | | | | | | | | | |];
    subst; [split; [reflexivity | discriminate]|].
  assert (Hnext : forall ec st wr' hd' s' t,
            async_at m ch cl (Entry ec st) wr' hd' s' t o ->
            completions (until_enter t) = 0 /\
            (forall ec0, o = Finished ec0 -> 1 <= enters t)).
  { intros ec st wr' hd' s' t Ht.
    destruct (entry_starts Ht) as [[-> ->]|[t' ->]]; simpl;
      (split; [reflexivity|]); intros; try discriminate; lia. }
  inversion H0; subst; simpl;
    try match goal with
    | Hx : async_at _ _ _ (Inside State1) _ _ _ _ _ |- _ =>
        inversion Hx; subst; simpl
    end;
    match goal with
    | Hx : async_at _ _ _ (Entry _ _) _ _ _ _ _ |- _ =>
        destruct (Hnext _ _ _ _ _ _ Hx) as [Hc He]
    end;
    (split; [exact Hc|]); intros ec Ho; specialize (He _ Ho); lia.
Qed.

(** X4.  The handler is never called from the call of [operator()] that the
    constructor of [write_op] makes, so never before [async_write] has
    returned: whatever ends that call (a failed init, a failing writer, a
    suspension, a stream write) leaves the rest to a later entry.  A run
    that has called the handler has entered the operation at least twice. *)
Theorem handler_not_called_by_first_call c fuel m s tr o :
  run (Async c) fuel m s = (tr, o) ->
  completions (first_call tr) = 0 /\
  (forall ec, o = Finished ec -> 2 <= enters tr).
Proof.
  intros H. apply run_sound in H. inversion H as [| |c' H']; subst.
  eapply async_first_call; eauto.
Qed.

(** ** One stream write per slice *)

Lemma async_payloads m ch cl p wr hd s tr o :
  async_at m ch cl p wr hd s tr o ->
  forall ec, o = Finished ec ->
  trace_ok tr = true ->
  live p ->
  payloads tr = writes_from ch (header m) (point_state p) hd (slices tr).
Proof.
  induction 1; simpl; intros ec0 Ho Hok Hlive;
    try discriminate; try contradiction;
    try (destruct r; [discriminate|]);
    try (erewrite IHasync_at by (simpl; eauto));
    simpl; auto.
  - apply async_late_calls in H1. unfold expected_writes.
    destruct dn, ch; simpl in *;
      rewrite ?(calls_nil_slices _ H1); reflexivity.
  - apply async_late_calls in H1.
    destruct dn, ch; simpl in *;
      rewrite ?(calls_nil_slices _ H1); reflexivity.
Qed.

(** X1.  A run of [write_op] that completes without error has issued one
    stream write per slice the writer emitted, in order: the first carries
    the header block in front of the framed slice, every later one a framed
    slice alone; a chunked message adds one more write, of the final chunk
    alone. *)
Theorem async_writes_slice_by_slice c fuel m s tr ec :
  run (Async c) fuel m s = (tr, Finished ec) ->
  trace_ok tr = true ->
  payloads tr = expected_writes (msg_chunked m) (header m) (slices tr).
Proof.
  intros H Hok. apply run_sound in H. inversion H as [| |c' H']; subst.
  eapply async_payloads in H'; simpl; eauto.
Qed.

(** ** What an entry is for *)

Lemma async_entries m ch cl p wr hd s tr o :
  async_at m ch cl p wr hd s tr o ->
  forall ec, o = Finished ec ->
  trace_ok tr = true ->
  match p with
  | Entry None _ => enters tr = 1 + length (payloads tr) + suspensions tr
  | Entry (Some _) _ => True
  | Inside _ => enters tr = length (payloads tr) + suspensions tr
  end.
Proof.
  induction 1; simpl; intros ec0 Ho Hok; try discriminate; auto;
    try (destruct r; [discriminate|]);
    try (specialize (IHasync_at _ Ho Hok); simpl in IHasync_at; lia).
Qed.

(** X5.  In a run of [write_op] that completes without error the operation is
    entered once by the constructor and then exactly once for every stream
    write that completed and once for every suspension that was resumed:
    no entry is lost and none is spurious. *)
Theorem async_entries_counted c fuel m s tr ec :
  run (Async c) fuel m s = (tr, Finished ec) ->
  trace_ok tr = true ->
  enters tr = 1 + length (payloads tr) + suspensions tr.
Proof.
  intros H Hok. apply run_sound in H. inversion H as [| |c' H']; subst.
  eapply async_entries in H'; eauto.
Qed.

(** ** The life cycle of the writer under [write] *)

Lemma sync_run_calls ch cl inner wr hd s tr ec :
  sync_run ch cl inner wr hd s tr (Finished ec) -> calls tr <> [].
Proof. inversion 1; subst; simpl; discriminate. Qed.

Lemma sync_done_at_head ch cl inner wr hd s tr o :
  sync_run ch cl inner wr hd s tr o ->
  forall ec, o = Finished ec ->
  trace_ok tr = true ->
  if inner then calls_after_done tr = true
  else (exists b, calls tr = [Emit b true]) \/ calls_after_done tr = true.
Proof.
  induction 1; simpl; intros ec0 Ho Hok; try discriminate; eauto.
  - subst o. apply sync_run_calls in H1.
    destruct (calls tr); [congruence|reflexivity].
  - left. exists b. tail_cases H1; simpl in *; try discriminate; reflexivity.
Qed.

(** X6.  [write] returns without error only in two ways: the very first
    call of the writer reported the end of the body and was the only call,
    or the writer has been called again after it had reported the end of
    the body.  A body that takes more than one call, or one suspension, is
    never written without the second. *)
Theorem sync_success_calls_after_done fuel m s tr ec :
  run Sync fuel m s = (tr, Finished ec) ->
  trace_ok tr = true ->
  (exists b, calls tr = [Emit b true]) \/ calls_after_done tr = true.
Proof.
  intros H Hok. apply run_sound in H.
  inversion H as [e w' Hi Ht Ho | w' tr' Hi Ht Hs |]; subst;
    [discriminate|].
  simpl in Hok. eapply sync_done_at_head in Hs; eauto.
Qed.

(** ** A writer whose init failed *)

(** X7.  When the init of the writer fails neither engine calls the writer
    or writes to the stream, and the caller gets the error of the init. *)
Theorem init_failure_skips_writer eng fuel m s tr o e w' :
  run eng fuel m s = (tr, o) ->
  w_init (body m) = (Some e, w') ->
  calls tr = [] /\ payloads tr = [] /\
  (forall ec, o = Finished ec -> ec = Some e).
Proof.
  intros H Hi. apply run_sound in H.
  destruct H as [e0 w0 Hi0 -> -> | w0 tr' Hi0 -> H | c H].
  - repeat split. intros ec Ho. congruence.
  - congruence.
  - inversion H; subst; [repeat split; discriminate|].
    match goal with
    | Hx : async_at _ _ _ (Inside State0) _ _ _ _ _ |- _ =>
        inversion Hx; subst; [|congruence]
    end.
    assert (e0 = e) by congruence. subst e0.
    entry_cases; repeat split; try discriminate.
    intros ec Ho. congruence.
Qed.

(** ** Enough entries *)

Lemma async_run_last fuel m (d : data Writer) ec again s :
  ec <> None \/ state d = State5 \/ state d = State99 ->
  exists ec', snd (async_run (S fuel) m d ec again s) = Finished ec'.
Proof.
  intros H. step_async_run_goal. open_op_call_goal.
  destruct d as [[wr hd ch cl] c st]. destruct ec as [e|].
  - simpl. eauto.
  - destruct H as [H|[H|H]]; [congruence| |]; simpl in H; subst st; simpl;
      [destruct cl|]; simpl; eauto.
Qed.

Lemma async_run_late fuel m (d : data Writer) ec again s :
  ec <> None \/ state d = State4 \/ state d = State5 \/ state d = State99 ->
  exists ec', snd (async_run (S (S fuel)) m d ec again s) = Finished ec'.
Proof.
  intros [H|[H|H]]; try (apply async_run_last; tauto).
  destruct ec as [e|]; [apply async_run_last; left; discriminate|].
  remember (S fuel) as f eqn:Hf. step_async_run_goal. open_op_call_goal.
  destruct d as [[wr hd ch cl] c st]. simpl in H. subst st. simpl.
  destruct (asio_write s chunk_encode_final) as [r s']. simpl.
  subst f. apply async_run_last. simpl. tauto.
Qed.

Lemma async_run_progress n : forall fuel m (d : data Writer) again s,
  ends_within w_call n (w (d_wp d)) = true ->
  state d = State1 \/ state d = State2 \/ state d = State3 ->
  n + 2 <= fuel ->
  exists ec', snd (async_run fuel m d None again s) = Finished ec'.
Proof.
  induction n as [|n IH]; intros fuel m d again s Hends Hst Hfuel;
    [discriminate|].
  destruct fuel as [|f]; [lia|].
  assert (Hlate : forall d' ec' again' s',
            ec' <> None \/ state d' = State4 \/ state d' = State5 \/
            state d' = State99 ->
            exists ec0, snd (async_run f m d' ec' again' s') = Finished ec0).
  { intros d' ec' again' s' H. replace f with (S (S (f - 2))) by lia.
    now apply async_run_late. }
  step_async_run_goal. open_op_call_goal.
  destruct d as [[wr hd ch cl] c st]. simpl in Hends, Hst.
  destruct (w_call wr) as [[b [|]| |e] w'] eqn:Hcall;
    destruct Hst as [-> | [-> | ->]]; simpl; rewrite Hcall; simpl;
    try match goal with
    | |- context [asio_write ?s0 ?p] =>
        destruct (asio_write s0 p) as [[e0|] s'] eqn:Hwrite; simpl
    end;
    try (apply Hlate; simpl; destruct ch; simpl;
         intuition discriminate);
    try (apply IH; simpl; [assumption | tauto | lia]);
    eauto.
Qed.

(** X2.  Once the writer has come to an end [write_op] does too.  When one of
    the first [n] calls of the writer reports the end of the body or fails,
    and every suspension is resumed, [n + 2] entries of [operator()] are
    enough for the handler to be called, whatever the stream does.  A writer
    whose init fails needs two. *)
Theorem async_write_finishes c n m s :
  (forall w', w_init (body m) = (None, w') ->
     ends_within w_call n w' = true) ->
  exists ec, snd (run (Async c) (n + 2) m s) = Finished ec.
Proof.
  intros Hends. simpl. open_run.
  replace (n + 2) with (S (S n)) by lia.
  remember (S n) as f eqn:Hf. step_async_run_goal. open_op_call_goal.
  simpl. unfold init. simpl.
  destruct (w_init (body m)) as [[e|] w'] eqn:Hinit; simpl.
  - subst f. apply async_run_last. left. discriminate.
  - specialize (Hends _ eq_refl). destruct n as [|n]; [discriminate|].
    simpl in Hends.
    destruct (w_call w') as [[b [|]| |e] w2] eqn:Hcall; simpl;
      try match goal with
      | |- context [asio_write ?s0 ?p] =>
          destruct (asio_write s0 p) as [[e0|] s'] eqn:Hwrite; simpl
      end;
      try (subst f; apply async_run_late; simpl;
           destruct (msg_chunked m); simpl; intuition discriminate);
      try (apply async_run_progress with (n := n); simpl;
           [assumption | tauto | lia]).
Qed.

End Properties.

(** * The delimiter search *)

Section DelimiterProperties.

Local Open Scope Z_scope.

(** ** [std::search] finds the first occurrence *)

Lemma skipn_nth_error (buf : bytes) it x :
  nth_error buf it = Some x -> skipn it buf = x :: skipn (S it) buf.
Proof.
  revert it. induction buf as [|b buf IH]; intros [|it]; simpl;
    try discriminate.
  - intros H. injection H as ->. reflexivity.
  - intros H. rewrite (IH _ H). reflexivity.
Qed.

Lemma search_compare_spec buf last s : forall it,
  (it <= last)%nat -> (last <= length buf)%nat ->
  match search_compare buf it last s with
  | SubFound => occurs_in buf s last it
  | SubAtLast => (last < it + length s)%nat
  | SubMismatch => ~ occurs_in buf s last it
  end.
Proof.
  unfold occurs_in.
  induction s as [|c s IH]; intros it Hit Hlast; simpl.
  - split; [lia | reflexivity].
  - destruct (Nat.eqb_spec it last) as [->|Hne]; [lia|].
    destruct (nth_error buf it) as [x|] eqn:Hnth.
    + rewrite (skipn_nth_error _ _ Hnth).
      destruct (Ascii.eqb_spec x c) as [->|Hxc].
      * specialize (IH (S it) ltac:(lia) Hlast).
        destruct (search_compare buf (S it) last s).
        -- destruct IH as [H1 H2]. split; [lia|]. now rewrite H2.
        -- lia.
        -- intros [H1 H2]. apply IH. split; [lia|]. congruence.
      * intros [_ H]. congruence.
    + apply nth_error_None in Hnth. lia.
Qed.

Lemma search_compare_room buf last s it :
  search_compare buf it last s = SubMismatch -> it <> last.
Proof.
  destruct s as [|c s]; simpl; [discriminate|].
  destruct (Nat.eqb_spec it last); [discriminate|auto].
Qed.

Lemma search_from_spec buf last s : forall fuel first,
  (first <= last)%nat -> (last <= length buf)%nat ->
  (last - first <= fuel)%nat ->
  let r := search_from fuel buf first last s in
  (first <= r <= last)%nat /\
  ((occurs_in buf s last r /\
    forall q, (first <= q < r)%nat -> ~ occurs_in buf s last q)
   \/ (r = last /\ forall q, (first <= q)%nat -> ~ occurs_in buf s last q)).
Proof.
  induction fuel as [|fuel IH]; intros first Hf Hl Hfuel; simpl;
    pose proof (@search_compare_spec buf last s first Hf Hl) as Hc;
    pose proof (@search_compare_room buf last s first) as Hroom;
    destruct (search_compare buf first last s).
  - split; [lia|]. left. split; [exact Hc|]. intros q Hq. lia.
  - split; [lia|]. right. split; [reflexivity|]. unfold occurs_in.
    intros q Hq [H _]. lia.
  - specialize (Hroom eq_refl). lia.
  - split; [lia|]. left. split; [exact Hc|]. intros q Hq. lia.
  - split; [lia|]. right. split; [reflexivity|]. unfold occurs_in.
    intros q Hq [H _]. lia.
  - specialize (Hroom eq_refl).
    specialize (IH (S first) ltac:(lia) Hl ltac:(lia)). simpl in IH.
    destruct IH as [Hr [[Ho Hmin]|[Hr2 Hno]]].
    + split; [lia|]. left. split; [exact Ho|]. intros q Hq.
      destruct (Nat.eq_dec q first) as [->|]; [exact Hc|]. apply Hmin. lia.
    + split; [lia|]. right. split; [exact Hr2|]. intros q Hq.
      destruct (Nat.eq_dec q first) as [->|]; [exact Hc|]. apply Hno. lia.
Qed.

Lemma size_t_of_small z : 0 <= z < 2 ^ 64 -> size_t_of z = z.
Proof. intros H. unfold size_t_of. apply Z.mod_small. exact H. Qed.

Lemma difference_of_small z : z < 2 ^ 63 -> difference_of z = z.
Proof.
  intros H. unfold difference_of.
  destruct (Z.ltb_spec z (2 ^ 63)); [reflexivity | lia].
Qed.

Lemma occurs_at_in buf d hi p :
  0 <= p -> 0 <= hi ->
  (occurs_in buf d (Z.to_nat hi) (Z.to_nat p) <->
   (p + size d <= hi /\ occurs_at buf d p)).
Proof.
  intros Hp Hhi. unfold occurs_in, occurs_at, size. split.
  - intros [H1 H2]. repeat split; try assumption; lia.
  - intros [H1 [_ H2]]. split; [lia | assumption].
Qed.

Lemma std_search_first buf d first last :
  0 <= first <= last -> last <= size buf ->
  let r := Z.of_nat (std_search buf (Z.to_nat first) (Z.to_nat last) d) in
  first <= r <= last /\
  (first_occurrence buf d first last r \/
   (r = last /\ no_occurrence buf d first last)).
Proof.
  intros Hf Hl. unfold std_search, size in *.
  destruct (@search_from_spec buf (Z.to_nat last) d
              (Z.to_nat last - Z.to_nat first) (Z.to_nat first))
    as [Hr [[Ho Hmin]|[Hr2 Hno]]]; try lia.
  - cbv zeta. split; [lia|]. left.
    set (r := search_from _ _ _ _ _) in *.
    pose proof (proj1 (@occurs_at_in buf d last (Z.of_nat r)
                         ltac:(lia) ltac:(lia))) as H.
    rewrite Nat2Z.id in H. destruct (H Ho) as [H1 H2].
    repeat split; try lia; try apply H2.
    intros q Hq Hocc. apply (Hmin (Z.to_nat q)); [lia|].
    apply occurs_at_in; [lia|lia|]. split; [|exact Hocc].
    unfold size in *. lia.
  - cbv zeta. split; [lia|]. right. split; [lia|].
    intros q Hq1 Hq2 Hocc. apply (Hno (Z.to_nat q)); [lia|].
    apply occurs_at_in; [lia|lia|]. split; assumption.
Qed.

(** ** One call of the condition *)

Lemma condition_call_step buf c0 c ec n :
  searching buf c0 c -> delim c <> [] ->
  prev_n c <= n -> c0 + n <= size buf ->
  exists r c', condition_call buf c ec n = Some (r, c') /\
    delim c' = delim c /\ left_pad c' = left_pad c /\ prev_n c' = n /\
    ((r = 0 /\
      first_occurrence buf (delim c)
        (window_start c0 (delim c) (left_pad c)) (c0 + n) (cursor c'))
     \/ (r = transfer_all ec n /\ searching buf c0 c')).
Proof.
  intros (Hcur & Hprev & Hpad & Hbuf & Hbig & Hd & Hno) Hne Hn Hcap.
  assert (Hlen : 1 <= size (delim c)).
  { unfold size. destruct (delim c); [congruence | simpl; lia]. }
  unfold condition_call.
  rewrite (@size_t_of_small (size (delim c) - 1)) by lia.
  rewrite (@size_t_of_small (prev_n c + left_pad c)) by lia.
  rewrite (@size_t_of_small (n - prev_n c)) by lia.
  rewrite !difference_of_small by lia.
  set (first := cursor c
                - Z.min (size (delim c) - 1) (prev_n c + left_pad c)).
  set (last := cursor c + (n - prev_n c)).
  assert (Hfirst : window_start c0 (delim c) (left_pad c) <= first)
    by (unfold window_start, first; lia).
  assert (Hrange : 0 <= first <= last) by (unfold first, last; lia).
  assert (Hlast : last = c0 + n) by (unfold last; lia).
  replace ((0 <=? first) && (first <=? last) && (last <=? size buf))%bool
    with true
    by (symmetry; rewrite !andb_true_iff, !Z.leb_le; lia).
  destruct (@std_search_first buf (delim c) first last Hrange ltac:(lia))
    as [Hr [Hfound | [Hr2 Hnone]]].
  - cbv zeta in Hfound, Hr.
    set (r := Z.of_nat (std_search _ _ _ _)) in *.
    destruct Hfound as (H1 & H2 & H3 & H4).
    do 2 eexists. split; [reflexivity|]. simpl.
    repeat split; try reflexivity.
    left. destruct (Z.eqb_spec r last) as [He|_]; [lia|].
    split; [reflexivity|]. repeat split; try lia; try apply H3.
    intros q Hq Hocc.
    destruct (Z_lt_le_dec q first) as [Hlt|Hge].
    + apply (Hno q); [lia | | exact Hocc]. unfold first in Hlt.
      unfold window_start in Hq. lia.
    + apply (H4 q); [lia | exact Hocc].
  - cbv zeta in Hr2, Hr.
    set (r := Z.of_nat (std_search _ _ _ _)) in *.
    do 2 eexists. split; [reflexivity|]. simpl.
    repeat split; try reflexivity.
    right. rewrite Hr2, Z.eqb_refl. split; [reflexivity|].
    unfold searching; simpl. repeat split; try lia.
    intros q Hq1 Hq2 Hocc. unfold window_start in *; simpl in *.
    destruct (Z_lt_le_dec q first) as [Hlt|Hge].
    + apply (Hno q); [lia | | exact Hocc]. unfold first in Hlt. lia.
    + apply (Hnone q); [lia | lia | exact Hocc].
Qed.

Lemma until_delimiter_searching buf c0 d lp :
  d <> [] -> 0 <= lp <= c0 -> c0 <= size buf -> size buf < 2 ^ 63 ->
  size d < 2 ^ 63 ->
  searching buf c0 (until_delimiter c0 d lp).
Proof.
  intros Hd Hlp Hc0 Hbuf Hsz. unfold searching, until_delimiter; simpl.
  repeat split; try lia.
  intros q Hq1 Hq2 _. unfold window_start in Hq1. lia.
Qed.

(** ** A whole read *)

Lemma last_cons (n : Z) l d : List.last (n :: l) d = List.last l n.
Proof.
  revert n d. induction l as [|a l IH]; intros n d; [reflexivity|].
  change (List.last (n :: a :: l) d) with (List.last (a :: l) d).
  rewrite !IH. reflexivity.
Qed.

Lemma first_occurrence_wider buf d lo hi hi' p :
  first_occurrence buf d lo hi p -> hi <= hi' ->
  first_occurrence buf d lo hi' p.
Proof.
  intros (H1 & H2 & H3 & H4) H. repeat split; auto; try lia; apply H3.
Qed.

Lemma consult_spec buf c0 : forall totals c,
  searching buf c0 c -> delim c <> [] ->
  totals_ok (prev_n c) (size buf - c0) totals ->
  exists b c', consult buf c totals = Some (b, c') /\
    delim c' = delim c /\ left_pad c' = left_pad c /\
    if b then
      first_occurrence buf (delim c)
        (window_start c0 (delim c) (left_pad c)) (c0 + prev_n c')
        (cursor c') /\
      exists pre post,
        totals = pre ++ prev_n c' :: post /\
        no_occurrence buf (delim c)
          (window_start c0 (delim c) (left_pad c))
          (c0 + List.last pre (prev_n c))
    else
      searching buf c0 c' /\ prev_n c' = List.last totals (prev_n c).
Proof.
  induction totals as [|n totals IH]; intros c Hs Hd Hok.
  - exists false, c. simpl. auto.
  - destruct Hok as [Hn Hok].
    destruct (@condition_call_step buf c0 c None n Hs Hd ltac:(lia)
                ltac:(lia))
      as (r & c1 & Hcall & Hd1 & Hp1 & Hn1 & [[-> Hfirst]|[-> Hs1]]).
    + exists true, c1. simpl. rewrite Hcall. simpl.
      split; [reflexivity|]. split; [exact Hd1|]. split; [exact Hp1|].
      split; [rewrite Hn1; exact Hfirst|].
      exists [], totals. simpl. split; [congruence|].
      destruct Hs as (_ & _ & _ & _ & _ & _ & Hno). exact Hno.
    + assert (Hd1' : delim c1 <> []) by congruence.
      rewrite <- Hn1 in Hok.
      destruct (IH c1 Hs1 Hd1' Hok) as (b & c' & Hc & Hd2 & Hp2 & Hres).
      exists b, c'. cbn [consult]. rewrite Hcall. simpl Z.eqb.
      cbv iota beta. rewrite Hc.
      split; [reflexivity|]. split; [congruence|]. split; [congruence|].
      rewrite Hd1, Hp1, Hn1 in Hres. destruct b.
      * destruct Hres as (Hf & pre & post & Ht & Hno). split; [exact Hf|].
        exists (n :: pre), post. split; [simpl; congruence|].
        rewrite last_cons. exact Hno.
      * rewrite last_cons. exact Hres.
Qed.

Lemma totals_ok_in cap : forall pre prev n post,
  totals_ok prev cap (pre ++ n :: post) -> prev <= n <= cap.
Proof.
  induction pre as [|a pre IH]; intros prev n post H; simpl in H.
  - tauto.
  - destruct H as [Ha H]. apply IH in H. lia.
Qed.

Lemma totals_ok_last cap : forall totals prev,
  totals_ok prev cap totals -> prev <= cap ->
  prev <= List.last totals prev <= cap.
Proof.
  induction totals as [|n totals IH]; intros prev H Hp; [simpl; lia|].
  destruct H as [Hn H]. rewrite last_cons. apply IH in H; lia.
Qed.

(** X8.  A read that consults a fresh condition, whatever the sizes of its
    pieces: when the condition stops the read the cursor is on the first
    occurrence of the delimiter from [window_start] on, that occurrence lies
    within the bytes read, and up to the call before none was complete;
    when it never stops the read there is no occurrence in all that was
    read, and the cursor is at the end of it.  A delimiter that arrives in
    pieces is found, since every call backtracks by the length of the
    delimiter less one. *)
Theorem until_delimiter_finds_first buf c0 d lp totals :
  d <> [] -> 0 <= lp <= c0 -> c0 <= size buf -> size buf < 2 ^ 63 ->
  size d < 2 ^ 63 ->
  totals_ok 0 (size buf - c0) totals ->
  exists b c', consult buf (until_delimiter c0 d lp) totals = Some (b, c') /\
    if b then
      first_occurrence buf d (window_start c0 d lp) (c0 + prev_n c')
                       (cursor c') /\
      exists pre post,
        totals = pre ++ prev_n c' :: post /\
        no_occurrence buf d (window_start c0 d lp) (c0 + List.last pre 0)
    else
      no_occurrence buf d (window_start c0 d lp) (c0 + List.last totals 0) /\
      cursor c' = c0 + List.last totals 0.
Proof.
  intros Hd Hlp Hc0 Hbuf Hsz Hok.
  destruct (@consult_spec buf c0 totals (until_delimiter c0 d lp))
    as (b & c' & Hc & Hd' & Hlp' & Hres);
    [now apply until_delimiter_searching | exact Hd | exact Hok |].
  exists b, c'. split; [exact Hc|]. simpl in Hres, Hd', Hlp'. destruct b.
  - exact Hres.
  - destruct Hres as [(Hcur & _ & _ & _ & _ & _ & Hno) Hn].
    rewrite Hd', Hlp', Hn in Hno. rewrite Hn in Hcur. auto.
Qed.

(** X9.  An occurrence of the delimiter that lies inside the left pad is not
    looked at: the first call backtracks by less than the length of the
    delimiter.  When the delimiter occurs nowhere but before [cursor_0] the
    condition never stops the read, although the range from
    [cursor_0 - left_pad] on holds it. *)
Theorem left_pad_occurrence_unseen buf c0 d lp totals :
  d <> [] -> 0 <= lp <= c0 -> c0 <= size buf -> size buf < 2 ^ 63 ->
  size d < 2 ^ 63 ->
  totals_ok 0 (size buf - c0) totals ->
  (forall q, occurs_at buf d q -> q + size d <= c0) ->
  exists c',
    consult buf (until_delimiter c0 d lp) totals = Some (false, c') /\
    cursor c' = c0 + List.last totals 0.
Proof.
  intros Hd Hlp Hc0 Hbuf Hsz Hok Hpad.
  destruct (@consult_spec buf c0 totals (until_delimiter c0 d lp))
    as (b & c' & Hc & _ & _ & Hres);
    [now apply until_delimiter_searching | exact Hd | exact Hok |].
  simpl in Hres. destruct b.
  - destruct Hres as [(Hlo & _ & Hocc & _) _]. apply Hpad in Hocc.
    unfold window_start in Hlo. lia.
  - exists c'. split; [exact Hc|].
    destruct Hres as [(Hcur & _) Hn]. rewrite Hn in Hcur. exact Hcur.
Qed.

(** X10.  With an empty delimiter [delim.size() - 1] wraps around, so the
    first call backtracks over the whole left pad; [std::search] returns the
    start of its range for an empty pattern.  The call reports a match at
    [cursor_0 - left_pad], except when the range is empty: then it asks for
    more. *)
Theorem empty_delimiter_matches_at_once buf c0 lp ec n :
  0 <= lp <= c0 -> 0 <= n -> c0 + n <= size buf -> size buf < 2 ^ 63 ->
  condition_call buf (until_delimiter c0 [] lp) ec n =
    Some (if lp + n =? 0 then transfer_all ec n else 0,
          {| cursor := c0 - lp; delim := []; left_pad := lp; prev_n := n |}).
Proof.
  intros Hlp Hn Hcap Hbuf. unfold condition_call, until_delimiter.
  cbn [cursor delim left_pad prev_n].
  change (size_t_of (size [] - 1)) with (2 ^ 64 - 1).
  rewrite (@size_t_of_small (0 + lp)) by lia.
  rewrite (@size_t_of_small (n - 0)) by lia.
  rewrite !difference_of_small by lia.
  replace (Z.min (2 ^ 64 - 1) (0 + lp)) with lp by lia.
  replace ((0 <=? c0 - lp) && (c0 - lp <=? c0 + (n - 0))
           && (c0 + (n - 0) <=? size buf))%bool with true
    by (symmetry; rewrite !andb_true_iff, !Z.leb_le; lia).
  assert (Hs : std_search buf (Z.to_nat (c0 - lp))
                          (Z.to_nat (c0 + (n - 0))) []
               = Z.to_nat (c0 - lp)).
  { unfold std_search.
    destruct (Z.to_nat (c0 + (n - 0)) - Z.to_nat (c0 - lp))%nat;
      reflexivity. }
  cbv zeta. rewrite Hs, Z2Nat.id by lia.
  destruct (Z.eqb_spec (c0 - lp) (c0 + (n - 0)));
    destruct (Z.eqb_spec (lp + n) 0); try lia; reflexivity.
Qed.

(** ** Part one of [main]: the header and the body prefix *)

Lemma firstn_plus (l : bytes) : forall a b,
  firstn (a + b) l = firstn a l ++ firstn b (skipn a l).
Proof.
  induction l as [|x l IH]; intros [|a] b; simpl;
    try reflexivity.
  - now destruct b.
  - now rewrite IH.
Qed.

(** X11.  When the first read was stopped by the condition, [main] cuts
    what was read in two: the header is everything up to and including the
    first CR LF CR LF, the body prefix is the rest of the [n] bytes read,
    and the two sizes it computes are the lengths of the two, so the
    unsigned subtraction does not wrap.  When the read was not stopped,
    [main] reports that it never saw the delimiter.  The [n] that
    [asio::read] returns is the total of the last call of the condition,
    which the condition keeps in [prev_n]. *)
Theorem split_header_partitions header_buf totals :
  size header_buf < 2 ^ 63 ->
  totals_ok 0 (size header_buf) totals ->
  exists b c',
    consult header_buf (until_delimiter 0 header_delim 0) totals
      = Some (b, c') /\
    if b then
      exists header body_prefix,
        split_header header_buf (prev_n c') (cursor c')
          = HeaderSeen (size header) (size body_prefix) header body_prefix /\
        header ++ body_prefix = firstn (Z.to_nat (prev_n c')) header_buf /\
        header = firstn (Z.to_nat (cursor c')) header_buf ++ header_delim /\
        first_occurrence header_buf header_delim 0 (prev_n c') (cursor c')
    else
      split_header header_buf (prev_n c') (cursor c')
        = NeverSawHeader (List.last totals 0 =? size header_buf).
Proof.
  intros Hbuf Hok.
  destruct (@consult_spec header_buf 0 totals
              (until_delimiter 0 header_delim 0))
    as (b & c' & Hc & _ & _ & Hres).
  { apply until_delimiter_searching; try discriminate; try lia.
    - unfold size. lia.
    - reflexivity. }
  { discriminate. }
  { simpl. now rewrite Z.sub_0_r. }
  pose proof (@totals_ok_last _ _ _ Hok ltac:(unfold size; lia)) as Hlast.
  exists b, c'. split; [exact Hc|]. simpl in Hres. destruct b.
  - destruct Hres as [Hfirst (pre & post & Ht & _)].
    change (window_start 0 header_delim 0) with 0 in Hfirst.
    rewrite ?Z.add_0_l in Hfirst.
    rewrite Ht in Hok. apply totals_ok_in in Hok.
    destruct Hfirst as (Hlo & Hhi & [Hp Hocc] & Hmin).
    change (size header_delim) with 4 in Hhi.
    change (length header_delim) with 4%nat in Hocc.
    set (p := cursor c') in *. set (n := prev_n c') in *.
    assert (Hlen : p + 4 <= size header_buf).
    { apply (f_equal (@length ascii)) in Hocc.
      rewrite length_firstn, length_skipn in Hocc.
      change (length header_delim) with 4%nat in Hocc. unfold size. lia. }
    exists (firstn (Z.to_nat (p + 4)) header_buf),
           (firstn (Z.to_nat (n - (p + 4)))
                   (skipn (Z.to_nat (p + 4)) header_buf)).
    assert (Hsplit : firstn (Z.to_nat (p + 4)) header_buf
                     = firstn (Z.to_nat p) header_buf ++ header_delim).
    { replace (Z.to_nat (p + 4)) with (Z.to_nat p + 4)%nat by lia.
      rewrite firstn_plus. now rewrite Hocc. }
    split; [|split; [|split]].
    + unfold split_header. cbv zeta.
      rewrite (@difference_of_small n) by lia.
      destruct (Z.eqb_spec p (0 + n)) as [He|_]; [lia|].
      change (size header_delim) with 4.
      rewrite (@difference_of_small 4) by lia.
      rewrite Z.sub_0_r.
      rewrite (@size_t_of_small (p + 4)) by lia.
      rewrite (@size_t_of_small (n - (p + 4))) by lia.
      unfold asio_buffer, buffer_plus, size.
      rewrite !length_firstn, length_skipn.
      unfold size in *. f_equal; lia.
    + replace (Z.to_nat n)
        with (Z.to_nat (p + 4) + Z.to_nat (n - (p + 4)))%nat by lia.
      now rewrite firstn_plus.
    + exact Hsplit.
    + repeat split; auto.
  - destruct Hres as [(Hcur & _) Hn]. simpl in Hcur.
    unfold split_header. cbv zeta.
    rewrite (@difference_of_small (prev_n c')) by lia.
    rewrite Hcur, Z.eqb_refl, Hn. reflexivity.
Qed.

(** ** Part two of [main]: the body delimiter across the two buffers *)

Lemma occurs_at_prefix hb hc bps suffix d q :
  0 <= hc -> 0 <= q -> q + size d <= bps -> hc + bps <= size hb ->
  occurs_at (body_buf (asio_buffer (buffer_plus hb hc) bps) suffix) d q ->
  occurs_at hb d (hc + q).
Proof.
  unfold occurs_at, body_buf, asio_buffer, buffer_plus, size.
  intros Hhc Hq Hd Hhb [_ H]. split; [lia|].
  rewrite skipn_app, firstn_app in H.
  rewrite length_skipn, length_firstn, length_skipn in H.
  replace (length d - (Init.Nat.min (Z.to_nat bps) (length hb - Z.to_nat hc)
                       - Z.to_nat q))%nat with 0%nat in H by lia.
  rewrite firstn_O, app_nil_r in H.
  rewrite skipn_firstn_comm, firstn_firstn, skipn_skipn in H.
  replace (Init.Nat.min (length d) (Z.to_nat bps - Z.to_nat q))
    with (length d) in H by lia.
  replace (Z.to_nat (hc + q)) with (Z.to_nat q + Z.to_nat hc)%nat by lia.
  exact H.
Qed.

(** X12.  [main] looks for the body delimiter in two steps: a condition of its
    own checks the body prefix, and the condition of the second read gets
    the length of the body prefix as its left pad.  When the check of the
    prefix found nothing, the two together cover the whole body: the second
    read is stopped on the first occurrence of the delimiter anywhere in
    body prefix and suffix, also one that straddles the two buffers; and
    when it is not stopped, the delimiter is nowhere in what was read. *)
Theorem body_search_covers_prefix header_buf header_cursor body_prefix_size
    body_suffix_buf totals r c1 :
  0 <= header_cursor -> 0 <= body_prefix_size ->
  header_cursor + body_prefix_size <= size header_buf ->
  size header_buf + size body_suffix_buf < 2 ^ 63 ->
  body_prefix_check header_buf header_cursor body_prefix_size
    = Some (r, c1) ->
  r <> 0 ->
  totals_ok 0 (size body_suffix_buf) totals ->
  let buf :=
    body_buf (asio_buffer (buffer_plus header_buf header_cursor)
                          body_prefix_size) body_suffix_buf in
  exists b c',
    consult buf (body_condition body_prefix_size) totals = Some (b, c') /\
    if b then
      first_occurrence buf body_delim 0 (body_prefix_size + prev_n c')
                       (cursor c')
    else
      no_occurrence buf body_delim 0
                    (body_prefix_size + List.last totals 0) /\
      cursor c' = body_prefix_size + List.last totals 0.
Proof.
  intros Hhc Hbps Hfit Hbig Hcheck Hr Hok buf.
  assert (Hsize : size buf = body_prefix_size + size body_suffix_buf).
  { unfold buf, body_buf, asio_buffer, buffer_plus, size.
    rewrite length_app, length_firstn, length_skipn. unfold size in *. lia. }
  assert (Hpre : no_occurrence buf body_delim 0 body_prefix_size).
  { unfold body_prefix_check in Hcheck.
    destruct (@condition_call_step header_buf header_cursor
                (until_delimiter header_cursor body_delim 0) None
                body_prefix_size)
      as (r' & c1' & Hcall & Hd1 & Hp1 & Hn1 & Hcases).
    - apply until_delimiter_searching; try discriminate; try lia.
      + unfold size in *. lia.
      + reflexivity.
    - discriminate.
    - simpl. lia.
    - lia.
    - rewrite Hcall in Hcheck. injection Hcheck as -> ->.
      destruct Hcases as [[H0 _]|[_ Hs]]; [contradiction|].
      destruct Hs as (_ & _ & _ & _ & _ & _ & Hno).
      rewrite Hd1, Hp1, Hn1 in Hno.
      cbn [until_delimiter delim left_pad] in Hno.
      unfold window_start in Hno. change (size body_delim) with 20 in Hno.
      intros q Hq1 Hq2 Hocc. change (size body_delim) with 20 in Hq2.
      apply (Hno (header_cursor + q));
        [lia | change (size body_delim) with 20; lia |].
      eapply occurs_at_prefix; eauto. }
  assert (Hcond : body_condition body_prefix_size
                  = until_delimiter body_prefix_size body_delim
                                    body_prefix_size).
  { unfold body_condition. cbv zeta.
    rewrite (@difference_of_small body_prefix_size)
      by (unfold size in *; lia).
    reflexivity. }
  rewrite Hcond.
  destruct (@consult_spec buf body_prefix_size totals
              (until_delimiter body_prefix_size body_delim body_prefix_size))
    as (b & c' & Hc & Hd' & Hlp' & Hres).
  { assert (0 <= size body_suffix_buf) by (unfold size; lia).
    apply until_delimiter_searching; try discriminate; try lia.
    reflexivity. }
  { discriminate. }
  { simpl. now replace (size buf - body_prefix_size)
      with (size body_suffix_buf) by lia. }
  exists b, c'. split; [exact Hc|].
  simpl in Hres, Hd', Hlp'.
  change (size body_delim) with 20 in *.
  unfold window_start in Hres. change (size body_delim) with 20 in Hres.
  destruct b.
  - destruct Hres as [(Hlo & Hhi & Hocc & Hmin) _].
    split; [lia|]. split; [exact Hhi|]. split; [exact Hocc|].
    intros q Hq Hq'.
    destruct (Z_lt_le_dec q (body_prefix_size
                             - Z.min (20 - 1) body_prefix_size)).
    + apply (Hpre q); [lia | | exact Hq'].
      change (size body_delim) with 20. lia.
    + apply (Hmin q); [lia | exact Hq'].
  - destruct Hres as [(Hcur & _ & _ & _ & _ & _ & Hno) Hn].
    rewrite Hd', Hlp', Hn in Hno. rewrite Hn in Hcur. split; [|exact Hcur].
    intros q Hq1 Hq2 Hocc.
    destruct (Z_lt_le_dec q (body_prefix_size
                             - Z.min (20 - 1) body_prefix_size)).
    + apply (Hpre q); [lia | | exact Hocc].
      change (size body_delim) with 20. lia.
    + apply (Hno q); [ | exact Hq2 | exact Hocc].
      unfold window_start. change (size body_delim) with 20. lia.
Qed.


End DelimiterProperties.

(** * The claims on concrete runs *)

(** The scenario of a chunked hello / world body, in the asynchronous
    engine. *)
Example hello_world_async :
  let r := demo_run (Async false) 20 (demo_message true false 0 two_slices) 100
  in
  outcome_of r = Finished None /\
  concat (payloads (trace_of r))
  = demo_header ++ str "5"%string ++ CRLF ++ str "hello"%string ++ CRLF
    ++ str "5"%string ++ CRLF ++ str "world"%string ++ CRLF
    ++ str "0"%string ++ CRLF ++ CRLF.
Proof. split; reflexivity. Qed.





Example close_after_reports_eof_runs :
  outcome_of (demo_run (Async true) 20
                (demo_message true true 0 hello_world) 100)
  = Finished (Some asio_eof) /\
  outcome_of (demo_run Sync 20 (demo_message true true 0 hello_world) 100)
  = Finished (Some asio_eof).
Proof. split; reflexivity. Qed.

(** The stream accepts one write and fails the second, and the run is cut
    right after the failed write: nothing has followed it, and one more unit
    of fuel hands error 32 to the caller. *)
Lemma error_ends_the_write_witness :
  let m := demo_message true true 0 two_slices in
  let tr := trace_of (demo_run (Async false) 2 m 1) in
  payloads [] = [] /\
  (forall ec, OutOfFuel = Finished ec ->
     ec = Some (errc_code 32) /\ completions tr = 1) /\
  (exists tr',
     demo_run (Async false) 3 m 1 = (tr', Finished (Some (errc_code 32))) /\
     payloads tr' = payloads tr /\ completions tr' = 1) /\
  (forall e' w', script_init (body m) = (Some e', w') -> payloads tr = []).
Proof.
  apply (error_ends_the_write script_init script_call
           (budget_write (errc_code 32)) (Async false) 2
           (demo_message true true 0 two_slices) 1
           [EvEnter; EvInit None; EvProduce (Emit (str "hello"%string) false);
            EvWrite HeaderAndBody demo_header
              (chunk_encode (str "hello"%string)) None;
            EvEnter; EvProduce (Emit (str "world"%string) true)]
           (EvWrite BodyOnly [] (chunk_encode (str "world"%string))
              (Some (errc_code 32)))
           []);
    reflexivity.
Defined.

(** The writer fails on its second call: one write has happened, none
    follows, and the caller gets error 5, in either engine; and when the
    writer's init fails nothing is written. *)
Example writer_fails_second :
  demo_run Sync 20 (demo_message true true 0 fails_second) 100
  = ([EvInit None; EvProduce (Emit (str "hello"%string) false);
      EvWrite HeaderAndBody demo_header (chunk_encode (str "hello"%string))
        None;
      EvProduce (Fail (errc_code 5)); EvComplete (Some (errc_code 5))],
     Finished (Some (errc_code 5))) /\
  demo_run (Async false) 20 (demo_message true true 0 fails_second) 100
  = ([EvEnter; EvInit None; EvProduce (Emit (str "hello"%string) false);
      EvWrite HeaderAndBody demo_header (chunk_encode (str "hello"%string))
        None;
      EvEnter; EvProduce (Fail (errc_code 5));
      EvComplete (Some (errc_code 5))],
     Finished (Some (errc_code 5))).
Proof. split; reflexivity. Qed.

Example init_fails :
  run (script_init_fail (errc_code 9)) script_call
      (budget_write (errc_code 32)) Sync 20
      (demo_message true true 0 two_slices) 100
  = ([EvInit (Some (errc_code 9)); EvComplete (Some (errc_code 9))],
     Finished (Some (errc_code 9))) /\
  run (script_init_fail (errc_code 9)) script_call
      (budget_write (errc_code 32)) (Async false) 20
      (demo_message true true 0 two_slices) 100
  = ([EvEnter; EvInit (Some (errc_code 9)); EvEnter;
      EvComplete (Some (errc_code 9))],
     Finished (Some (errc_code 9))).
Proof. split; reflexivity. Qed.

Lemma close_never_hides_error_witness :
  let r := demo_run Sync 20 (demo_message true true 0 fails_second) 100 in
  (forall e, In e (errors (trace_of r)) ->
     (forall ec, outcome_of r = Finished ec -> ec = Some e) /\
     snd (demo_run Sync 21 (demo_message true true 0 fails_second) 100)
     = Finished (Some e)) /\
  (outcome_of r = Finished (Some asio_eof) ->
   trace_ok (trace_of r) = true \/ In asio_eof (errors (trace_of r))).
Proof.
  apply (close_never_hides_error script_init script_call
           (budget_write (errc_code 32)) Sync 20
           (demo_message true true 0 fails_second) 100).
  reflexivity.
Defined.

(** The same with the close flag and a failing stream: the second write
    fails with error 32, which is what the caller gets. *)
Example close_flag_stream_error :
  outcome_of (demo_run (Async false) 20
                (demo_message true true 0 two_slices) 1)
  = Finished (Some (errc_code 32)) /\
  outcome_of (demo_run Sync 20 (demo_message true true 0 two_slices) 1)
  = Finished (Some (errc_code 32)).
Proof. split; reflexivity. Qed.


(** The writer suspends twice in that run, and the operation is entered
    six times. *)
Example hello_world_suspends_twice :
  let tr := trace_of (demo_run (Async false) 20
                        (demo_message true false 0 hello_world) 100) in
  suspensions tr = 2 /\ enters tr = 6.
Proof. split; reflexivity. Qed.

(** The synchronous engine does write after a suspension, before it waits
    for the resume context: the header block. *)
Example sync_writes_while_suspended :
  quiet_suspensions
    (trace_of (demo_run Sync 20 (demo_message true false 0 hello_world) 100))
  = false.
Proof. reflexivity. Qed.

(** C3 fails in the synchronous engine.  The writer reports the end of the
    body on its second call, which is made from the inner loop; the [break]
    leaves the inner loop only, and the head of the outer loop calls the
    writer a third time.  With a chunked message the slice of that third
    call is framed and written too, here as a second 0 CR LF CR LF. *)
Lemma sync_calls_writer_after_done :
  let r := demo_run Sync 10 (demo_message true false 0 two_slices) 100 in
  outcome_of r = Finished None /\
  trace_ok (trace_of r) = true /\
  calls (trace_of r)
  = [Emit (str "hello"%string) false; Emit (str "world"%string) true;
     Emit [] true] /\
  calls_after_done (trace_of r) = true /\
  payloads (trace_of r)
  = [demo_header ++ chunk_encode (str "hello"%string);
     chunk_encode (str "world"%string);
     chunk_encode []; chunk_encode_final].
Proof. repeat split; reflexivity. Qed.


(** The same with a writer that fails after the suspension: the
    synchronous engine has sent the header block by then, the asynchronous
    engine nothing at all. *)
Example engines_differ_on_failure :
  let m := demo_message false false 11 suspends_then_fails in
  payloads (trace_of (demo_run Sync 10 m 100)) = [demo_header] /\
  payloads (trace_of (demo_run (Async false) 10 m 100)) = [] /\
  outcome_of (demo_run Sync 10 m 100) = Finished (Some (errc_code 5)) /\
  outcome_of (demo_run (Async false) 10 m 100)
  = Finished (Some (errc_code 5)).
Proof. repeat split; reflexivity. Qed.


(** Two slices, chunked: up to the write of the second slice the engines
    agree; the synchronous engine then goes on to call the writer again. *)
Example engines_agree_until_done :
  let m := demo_message true false 0 two_slices in
  payloads (until_done (trace_of (demo_run Sync 10 m 100)))
  = [demo_header ++ chunk_encode (str "hello"%string);
     chunk_encode (str "world"%string)] /\
  payloads (until_done (trace_of (demo_run (Async false) 10 m 100)))
  = [demo_header ++ chunk_encode (str "hello"%string);
     chunk_encode (str "world"%string)].
Proof. split; reflexivity. Qed.




Example empty_last_slice_async :
  payloads (trace_of (demo_run (Async false) 20
                        (demo_message true false 0 empty_last) 100))
  = [demo_header ++ chunk_encode []; chunk_encode_final] /\
  payloads (trace_of (demo_run (Async false) 20
                        (demo_message false false 0 empty_last) 100))
  = [demo_header].
Proof. split; reflexivity. Qed.

(** * Further concrete runs, and the delimiter search on concrete buffers *)

Lemma handler_not_called_by_first_call_witness :
  let tr := trace_of (demo_run (Async false) 20
                        (demo_message true false 0 hello_world) 100) in
  completions (first_call tr) = 0 /\
  (forall ec, Finished None = Finished ec -> 2 <= enters tr).
Proof.
  apply (handler_not_called_by_first_call script_init script_call
           (budget_write (errc_code 32)) false 20
           (demo_message true false 0 hello_world) 100).
  reflexivity.
Defined.

(** The writer fails on its very first call: the handler is still not
    called by the first call of the operation but by a second, posted one. *)
Example first_call_posts_failure :
  trace_of (demo_run (Async false) 20
              (demo_message false false 0 [Fail (errc_code 5)]) 100)
  = [EvEnter; EvInit None; EvProduce (Fail (errc_code 5));
     EvEnter; EvComplete (Some (errc_code 5))].
Proof. reflexivity. Qed.

Lemma async_writes_slice_by_slice_witness :
  let tr := trace_of (demo_run (Async false) 20
                        (demo_message true false 0 hello_world) 100) in
  payloads tr = expected_writes true demo_header (slices tr).
Proof.
  apply (async_writes_slice_by_slice script_init script_call
           (budget_write (errc_code 32)) false 20
           (demo_message true false 0 hello_world) 100 (ec := None));
    reflexivity.
Defined.

(** The three stream writes of that run. *)
Example hello_world_three_writes :
  payloads (trace_of (demo_run (Async false) 20
                        (demo_message true false 0 hello_world) 100))
  = [demo_header ++ chunk_encode (str "hello"%string);
     chunk_encode (str "world"%string);
     chunk_encode_final].
Proof. reflexivity. Qed.

Lemma async_entries_counted_witness :
  let tr := trace_of (demo_run (Async false) 20
                        (demo_message true false 0 hello_world) 100) in
  enters tr = 1 + length (payloads tr) + suspensions tr.
Proof.
  apply (async_entries_counted script_init script_call
           (budget_write (errc_code 32)) false 20
           (demo_message true false 0 hello_world) 100 (ec := None));
    reflexivity.
Defined.

Lemma sync_success_calls_after_done_witness :
  let tr := trace_of (demo_run Sync 20
                        (demo_message false false 10 two_slices) 100) in
  (exists b, calls tr = [Emit b true]) \/ calls_after_done tr = true.
Proof.
  apply (sync_success_calls_after_done script_init script_call
           (budget_write (errc_code 32)) 20
           (demo_message false false 10 two_slices) 100 (ec := None));
    reflexivity.
Defined.

(** A body of one slice is written with a single call of the writer. *)
Example sync_single_call :
  calls (trace_of (demo_run Sync 20
                     (demo_message false false 5
                        [Emit (str "hello"%string) true]) 100))
  = [Emit (str "hello"%string) true].
Proof. reflexivity. Qed.

Lemma init_failure_skips_writer_witness :
  let r := run (script_init_fail (errc_code 7)) script_call
               (budget_write (errc_code 32)) (Async false) 20
               (demo_message true false 0 hello_world) 100 in
  calls (trace_of r) = [] /\ payloads (trace_of r) = [] /\
  (forall ec, Finished (Some (errc_code 7)) = Finished ec ->
   ec = Some (errc_code 7)).
Proof.
  apply (init_failure_skips_writer (script_init_fail (errc_code 7))
           script_call (budget_write (errc_code 32)) (Async false) 20
           (demo_message true false 0 hello_world) 100
           (e := errc_code 7) (w' := hello_world));
    reflexivity.
Defined.

Lemma async_write_finishes_witness :
  exists ec,
    snd (run script_init script_call (budget_write (errc_code 32))
             (Async false) (4 + 2) (demo_message true false 0 hello_world)
             100)
    = Finished ec.
Proof.
  apply (async_write_finishes script_init script_call
           (budget_write (errc_code 32)) false 4
           (demo_message true false 0 hello_world) 100).
  intros w' H. injection H as <-. reflexivity.
Defined.

(** Four calls of the writer and six entries: one entry less leaves the
    operation unfinished. *)
Example hello_world_needs_six_entries :
  outcome_of (demo_run (Async false) 6
                (demo_message true false 0 hello_world) 100) = Finished None
  /\ outcome_of (demo_run (Async false) 5
                   (demo_message true false 0 hello_world) 100) = OutOfFuel.
Proof. split; reflexivity. Qed.

Lemma until_delimiter_finds_first_witness :
  exists b c',
    consult demo_request (until_delimiter 0 header_delim 0) [0; 10; 25; 37]%Z
      = Some (b, c') /\
    if b then
      first_occurrence demo_request header_delim
        (window_start 0 header_delim 0) (0 + prev_n c') (cursor c') /\
      exists pre post,
        [0; 10; 25; 37]%Z = pre ++ prev_n c' :: post /\
        no_occurrence demo_request header_delim
          (window_start 0 header_delim 0) (0 + List.last pre 0%Z)
    else
      no_occurrence demo_request header_delim (window_start 0 header_delim 0)
        (0 + List.last [0; 10; 25; 37]%Z 0%Z) /\
      cursor c' = (0 + List.last [0; 10; 25; 37]%Z 0)%Z.
Proof.
  apply (@until_delimiter_finds_first demo_request 0 header_delim 0
           [0; 10; 25; 37]%Z).
  - discriminate.
  - lia.
  - now vm_compute.
  - reflexivity.
  - reflexivity.
  - change (size demo_request - 0)%Z with 37%Z. simpl. lia.
Defined.

(** The read of that request is stopped at the third total, with the cursor
    on the CR LF CR LF at offset 23, although after 25 bytes only half of it
    had arrived. *)
Example header_delimiter_in_pieces :
  consult demo_request (until_delimiter 0 header_delim 0) [0; 10; 25; 37]%Z
  = Some (true, {| cursor := 23; delim := header_delim; left_pad := 0;
                   prev_n := 37 |}).
Proof. reflexivity. Qed.

Lemma left_pad_occurrence_unseen_witness :
  exists c',
    consult demo_padded (until_delimiter 4 (str "--"%string) 4) [0; 2]%Z
      = Some (false, c') /\
    cursor c' = (4 + List.last [0; 2]%Z 0)%Z.
Proof.
  apply (@left_pad_occurrence_unseen demo_padded 4 (str "--"%string) 4
           [0; 2]%Z).
  - discriminate.
  - lia.
  - now vm_compute.
  - reflexivity.
  - reflexivity.
  - change (size demo_padded - 4)%Z with 2%Z. simpl. lia.
  - intros q [Hq H]. change (size (str "--"%string)) with 2%Z.
    destruct (Z.to_nat q) as [|[|[|[|[|[|k]]]]]] eqn:Hk; cbv in H;
      try discriminate H; try (destruct k; discriminate H). lia.
Defined.

Lemma empty_delimiter_matches_at_once_witness :
  condition_call demo_padded (until_delimiter 4 [] 4) None 2 =
    Some (if (4 + 2 =? 0)%Z then transfer_all None 2 else 0%Z,
          {| cursor := 4 - 4; delim := []; left_pad := 4; prev_n := 2 |}).
Proof.
  apply (@empty_delimiter_matches_at_once demo_padded 4 4 None 2).
  - lia.
  - lia.
  - now vm_compute.
  - reflexivity.
Defined.

Lemma split_header_partitions_witness :
  exists b c',
    consult demo_request (until_delimiter 0 header_delim 0) [0; 10; 25; 37]%Z
      = Some (b, c') /\
    if b then
      exists header body_prefix,
        split_header demo_request (prev_n c') (cursor c')
          = HeaderSeen (size header) (size body_prefix) header body_prefix /\
        header ++ body_prefix = firstn (Z.to_nat (prev_n c')) demo_request /\
        header = firstn (Z.to_nat (cursor c')) demo_request ++ header_delim /\
        first_occurrence demo_request header_delim 0 (prev_n c') (cursor c')
    else
      split_header demo_request (prev_n c') (cursor c')
        = NeverSawHeader
            (List.last [0; 10; 25; 37]%Z 0 =? size demo_request)%Z.
Proof.
  apply (@split_header_partitions demo_request [0; 10; 25; 37]%Z).
  - reflexivity.
  - change (size demo_request) with 37%Z. simpl. lia.
Defined.

(** The header of 27 bytes and the body prefix of ten. *)
Example demo_request_split :
  split_header demo_request 37 23
  = HeaderSeen 27 10
      (str "GET / HTTP/1.1"%string ++ CRLF ++ str "Host: a"%string ++ CRLF
       ++ CRLF)
      (str "0123456789"%string).
Proof. reflexivity. Qed.

Lemma body_search_covers_prefix_witness :
  let buf :=
    body_buf (asio_buffer (buffer_plus demo_request 27) 10) demo_suffix in
  exists b c',
    consult buf (body_condition 10) [0; 5; 13]%Z = Some (b, c') /\
    if b then
      first_occurrence buf body_delim 0 (10 + prev_n c') (cursor c')
    else
      no_occurrence buf body_delim 0 (10 + List.last [0; 5; 13] 0)%Z /\
      cursor c' = (10 + List.last [0; 5; 13] 0)%Z.
Proof.
  apply (@body_search_covers_prefix demo_request 27 10 demo_suffix
           [0; 5; 13]%Z 65536
           {| cursor := 37; delim := body_delim; left_pad := 0;
              prev_n := 10 |}).
  - lia.
  - lia.
  - now vm_compute.
  - reflexivity.
  - reflexivity.
  - discriminate.
  - change (size demo_suffix) with 13%Z. simpl. lia.
Defined.

(** The body delimiter straddles the two buffers: ten bytes of it are the
    body prefix, ten come with the second read, which is stopped with the
    cursor at the start of the body. *)
Example body_delimiter_straddles :
  consult (body_buf (asio_buffer (buffer_plus demo_request 27) 10)
                    demo_suffix)
          (body_condition 10) [0; 5; 13]%Z
  = Some (true, {| cursor := 0; delim := body_delim; left_pad := 10;
                   prev_n := 13 |}).
Proof. reflexivity. Qed.
